(** * Emergency Responder: a shallow embedding of [src/App.jsx]

    The React component [App] of the repository is translated function by
    function.  Component state ([useState]) and refs ([useRef]) become the
    fields of one record, the browser's timer table ([setTimeout] /
    [clearTimeout]) becomes an explicit queue, and every closure handed to
    [setTimeout] becomes a constructor of [Action].

    - Closures.  A function defined in the component body reads the state
      variables of the render that created it.  [triggerEmergency] and
      [handleNetworkEmergency] therefore take that render as an argument.
      The effects of the component have dependency lists that never change
      ([[]] and [[addLog]]), so they run once and everything they define
      ([updateNetworkStatus], [handleActivity] and the timers these set)
      belongs to the first render; the [onClick] handler belongs to the
      render that is current when the button is pressed.
    - Rendering.  A state update is followed by a render before the next
      event or timer is handled.
    - Time is the value of [Date.now()], an integer number of milliseconds.
      A timer runs at its due time, before an event that arrives at the same
      clock value; timers that are due together run oldest first.
    - JavaScript numbers are IEEE 754 binary64 values ([spec_float] with
      precision 53 and maximal exponent 1024). *)

From Stdlib Require Import ZArith List String Ascii Bool Lia SpecFloat.
Import ListNotations.
Local Open Scope string_scope.
Local Open Scope list_scope.
Local Open Scope Z_scope.

(* ================================================================== *)
(** * JavaScript numbers *)

Module Num.

Definition number := spec_float.

(** The double [m * 2^e], for literals that binary64 represents exactly. *)
Definition dyadic (m e : Z) : number := binary_normalize 53 1024 m e false.

(** [a - b], [Math.abs(a)], [a < b] and [a > b] on doubles. *)
Definition sub (a b : number) : number := SFsub 53 1024 a b.
Definition abs (a : number) : number := SFabs a.
Definition lt (a b : number) : bool := SFltb a b.
Definition gt (a b : number) : bool := SFltb b a.

(** The literals of the source. *)
Definition half : number := Eval vm_compute in dyadic 1 (-1).
Definition one : number := Eval vm_compute in dyadic 1 0.
Definition thousand : number := Eval vm_compute in dyadic 1000 0.
Definition two_thousand : number := Eval vm_compute in dyadic 2000 0.

(** [0.0001] is not a dyadic rational: the literal denotes the nearest
    double, [7378697629483821 * 2^-66] (0x1.a36e2eb1c432dp-14). *)
Definition epsilon : number := S754_finite false 7378697629483821 (-66).

End Num.

(* ================================================================== *)
(** * Strings: [String.prototype.includes] *)

Fixpoint includes (search s : string) : bool :=
  prefix search s ||
  match s with
  | EmptyString => false
  | String _ s' => includes search s'
  end.

(* ================================================================== *)
(** * The bounded log ([addLog], lines 24-34) *)

(** An entry is the string [`${new Date().toLocaleTimeString()}: ${message}`];
    the locale rendering of the clock is kept as the clock value itself. *)
Definition LogEntry : Type := Z * string.

(** [prev.slice(-n)]: the last [n] elements (all of them when there are
    fewer). *)
Definition slice_last {A} (n : nat) (l : list A) : list A :=
  skipn (List.length l - n) l.

(** The updater passed to [setLogs]. *)
Definition addLog_update (message : string) (now : Z) (prev : list LogEntry)
  : list LogEntry :=
  if (20 <? List.length prev)%nat
  then slice_last 19 prev ++ [(now, message)]
  else prev ++ [(now, message)].

(* ================================================================== *)
(** * Network metadata and its classification (lines 96-110) *)

(** [navigator.connection]: the three properties the component reads. *)
Record Connection := {
  effectiveType : string;
  downlink : Num.number;
  rtt : Num.number
}.

(** The two conditions, in the order of the source. *)
Definition poor_condition (c : Connection) : bool :=
  includes "2g" (effectiveType c) || Num.lt (downlink c) Num.one
  || Num.gt (rtt c) Num.thousand.

Definition very_poor_condition (c : Connection) : bool :=
  includes "slow-2g" (effectiveType c) || Num.lt (downlink c) Num.half
  || Num.gt (rtt c) Num.two_thousand.

(** The [let status; if ... else if ... else ...] block of
    [updateNetworkStatus]. *)
Definition classify (c : Connection) : string :=
  if poor_condition c then "poor"
  else if very_poor_condition c then "very-poor"
  else "good".

(* ================================================================== *)
(** * The browser's timers: [setTimeout] and [clearTimeout] *)

Section Timers.

(** What a pending timer will run: the closure given to [setTimeout]. *)
Context {Act : Type}.

Record Timer := { tid : nat; due : Z; act : Act }.

(** Pending timers in creation order, and the next handle to hand out. *)
Record TimerTable := { queue : list Timer; next_id : nat }.

Definition no_timers : TimerTable := {| queue := []; next_id := 0 |}.

(** [setTimeout(a, delay)] called at [now]: a negative delay counts as 0.
    Returns the new handle. *)
Definition setTimeout (a : Act) (delay now : Z) (t : TimerTable)
  : nat * TimerTable :=
  (next_id t,
   {| queue := queue t ++
               [{| tid := next_id t; due := now + Z.max 0 delay; act := a |}];
      next_id := S (next_id t) |}).

(** [clearTimeout(h)]: nothing happens for [undefined] / [null] or for a
    handle that is no longer pending. *)
Definition clearTimeout (h : option nat) (t : TimerTable) : TimerTable :=
  match h with
  | None => t
  | Some id =>
      {| queue := filter (fun tm => negb (Nat.eqb (tid tm) id)) (queue t);
         next_id := next_id t |}
  end.

(** The timer to run next and the ones that stay: the earliest due time
    wins, the older timer among equals. *)
Fixpoint pop_earliest (q : list Timer) : option (Timer * list Timer) :=
  match q with
  | [] => None
  | tm :: q' =>
      match pop_earliest q' with
      | None => Some (tm, [])
      | Some (tm', rest) =>
          if due tm <=? due tm' then Some (tm, q') else Some (tm', tm :: rest)
      end
  end.

(** The next timer, when it is due at time [T]. *)
Definition pop_due (T : Z) (q : list Timer) : option (Timer * list Timer) :=
  match pop_earliest q with
  | Some (tm, rest) => if due tm <=? T then Some (tm, rest) else None
  | None => None
  end.

End Timers.

Arguments Timer : clear implicits.
Arguments TimerTable : clear implicits.

(* ================================================================== *)
(** * The throttle helper (lines 254-273) *)

(** The two variables of the closure that [throttle] returns: [lastFunc]
    holds a timer handle, [lastRan] a clock value; both start [undefined]. *)
Record Closure := { lastFunc : option nat; lastRan : option Z }.

Definition new_closure : Closure := {| lastFunc := None; lastRan := None |}.

Definition set_lastRan (now : Z) (c : Closure) : Closure :=
  {| lastFunc := lastFunc c; lastRan := Some now |}.

Definition set_lastFunc (id : nat) (c : Closure) : Closure :=
  {| lastFunc := Some id; lastRan := lastRan c |}.

Section Throttle.

(** [W] is the state the callback works on, [A] the arguments of a call. *)
Context {W A : Type}.

(** [func.apply(context, args)] run at a given clock value. *)
Variable func : A -> Z -> W -> W.
Variable limit : Z.

(** [setTimeout(function () { ... args ... }, delay)] and
    [clearTimeout(lastFunc)] on the host's timer table. *)
Variable defer : A -> Z -> Z -> W -> nat * W.
Variable cancel : option nat -> W -> W.

(** [func.apply(context, args); lastRan = Date.now()]. *)
Definition run_now (args : A) (now : Z) (c : Closure) (w : W) : Closure * W :=
  (set_lastRan now c, func args now w).

(** The function that [throttle] returns, called at [now].  [!lastRan]
    holds for [undefined] and for the number 0. *)
Definition throttled (args : A) (now : Z) (c : Closure) (w : W)
  : Closure * W :=
  match lastRan c with
  | None => run_now args now c w
  | Some r =>
      if r =? 0 then run_now args now c w
      else
        let w1 := cancel (lastFunc c) w in
        let '(id, w2) := defer args (limit - (now - r)) now w1 in
        (set_lastFunc id c, w2)
  end.

(** The function given to [setTimeout], run at [now] with the arguments it
    captured.  With [lastRan] undefined the difference would be [NaN] and
    the test false. *)
Definition trailing (args : A) (now : Z) (c : Closure) (w : W)
  : Closure * W :=
  match lastRan c with
  | Some r => if limit <=? now - r then run_now args now c w else (c, w)
  | None => (c, w)
  end.

End Throttle.

(* ================================================================== *)
(** * The component [App] *)

Record Location := { lat : Num.number; lng : Num.number }.

(** The values of the state variables that closures read are those of the
    render that created the closure. *)
Record Render := { seen_networkStatus : string; seen_emergencyMode : bool }.

(** The first render sees the initial values of [useState]. *)
Definition first_render : Render :=
  {| seen_networkStatus := "checking..."; seen_emergencyMode := false |}.

(** The closures given to [setTimeout] in the component. *)
Inductive Action :=
| InitialCheck                      (* line 120: updateNetworkStatus *)
| TrailingUpdate                    (* line 265, inside throttledUpdate *)
| TrailingActivity                  (* line 265, inside throttledHandler *)
| InactivityTimeout                 (* lines 156-160 *)
| EscalationTimeout (r : Render)    (* lines 183-187 *)
| ResolveEmergency.                 (* lines 198-201 *)

(** What the platform offers: ["geolocation" in navigator],
    ["connection" in navigator], [window.Worker]. *)
Record Capabilities := {
  has_geolocation : bool;
  has_connection : bool;
  has_worker : bool
}.

Record State := {
  (* useState *)
  location : option Location;
  networkStatus : string;
  isInactive : bool;
  emergencyMode : bool;
  logs : list LogEntry;
  (* useRef *)
  inactivityTimer : option nat;
  emergencyTimer : option nat;
  (* variables of the effects' closures *)
  mounted : bool;
  updateThrottle : Closure;
  activityThrottle : Closure;
  (* the platform *)
  timers : TimerTable Action;
  connection : Connection;
  capabilities : Capabilities
}.

Definition set_location v st :=
  {| location := v; networkStatus := networkStatus st;
     isInactive := isInactive st; emergencyMode := emergencyMode st;
     logs := logs st; inactivityTimer := inactivityTimer st;
     emergencyTimer := emergencyTimer st; mounted := mounted st;
     updateThrottle := updateThrottle st;
     activityThrottle := activityThrottle st; timers := timers st;
     connection := connection st; capabilities := capabilities st |}.

Definition setNetworkStatus v st :=
  {| location := location st; networkStatus := v;
     isInactive := isInactive st; emergencyMode := emergencyMode st;
     logs := logs st; inactivityTimer := inactivityTimer st;
     emergencyTimer := emergencyTimer st; mounted := mounted st;
     updateThrottle := updateThrottle st;
     activityThrottle := activityThrottle st; timers := timers st;
     connection := connection st; capabilities := capabilities st |}.

Definition setIsInactive v st :=
  {| location := location st; networkStatus := networkStatus st;
     isInactive := v; emergencyMode := emergencyMode st;
     logs := logs st; inactivityTimer := inactivityTimer st;
     emergencyTimer := emergencyTimer st; mounted := mounted st;
     updateThrottle := updateThrottle st;
     activityThrottle := activityThrottle st; timers := timers st;
     connection := connection st; capabilities := capabilities st |}.

Definition setEmergencyMode v st :=
  {| location := location st; networkStatus := networkStatus st;
     isInactive := isInactive st; emergencyMode := v;
     logs := logs st; inactivityTimer := inactivityTimer st;
     emergencyTimer := emergencyTimer st; mounted := mounted st;
     updateThrottle := updateThrottle st;
     activityThrottle := activityThrottle st; timers := timers st;
     connection := connection st; capabilities := capabilities st |}.

Definition setLogs v st :=
  {| location := location st; networkStatus := networkStatus st;
     isInactive := isInactive st; emergencyMode := emergencyMode st;
     logs := v; inactivityTimer := inactivityTimer st;
     emergencyTimer := emergencyTimer st; mounted := mounted st;
     updateThrottle := updateThrottle st;
     activityThrottle := activityThrottle st; timers := timers st;
     connection := connection st; capabilities := capabilities st |}.

Definition set_inactivityTimer v st :=
  {| location := location st; networkStatus := networkStatus st;
     isInactive := isInactive st; emergencyMode := emergencyMode st;
     logs := logs st; inactivityTimer := v;
     emergencyTimer := emergencyTimer st; mounted := mounted st;
     updateThrottle := updateThrottle st;
     activityThrottle := activityThrottle st; timers := timers st;
     connection := connection st; capabilities := capabilities st |}.

Definition set_emergencyTimer v st :=
  {| location := location st; networkStatus := networkStatus st;
     isInactive := isInactive st; emergencyMode := emergencyMode st;
     logs := logs st; inactivityTimer := inactivityTimer st;
     emergencyTimer := v; mounted := mounted st;
     updateThrottle := updateThrottle st;
     activityThrottle := activityThrottle st; timers := timers st;
     connection := connection st; capabilities := capabilities st |}.

Definition set_updateThrottle v st :=
  {| location := location st; networkStatus := networkStatus st;
     isInactive := isInactive st; emergencyMode := emergencyMode st;
     logs := logs st; inactivityTimer := inactivityTimer st;
     emergencyTimer := emergencyTimer st; mounted := mounted st;
     updateThrottle := v;
     activityThrottle := activityThrottle st; timers := timers st;
     connection := connection st; capabilities := capabilities st |}.

Definition set_activityThrottle v st :=
  {| location := location st; networkStatus := networkStatus st;
     isInactive := isInactive st; emergencyMode := emergencyMode st;
     logs := logs st; inactivityTimer := inactivityTimer st;
     emergencyTimer := emergencyTimer st; mounted := mounted st;
     updateThrottle := updateThrottle st;
     activityThrottle := v; timers := timers st;
     connection := connection st; capabilities := capabilities st |}.

Definition set_timers v st :=
  {| location := location st; networkStatus := networkStatus st;
     isInactive := isInactive st; emergencyMode := emergencyMode st;
     logs := logs st; inactivityTimer := inactivityTimer st;
     emergencyTimer := emergencyTimer st; mounted := mounted st;
     updateThrottle := updateThrottle st;
     activityThrottle := activityThrottle st; timers := v;
     connection := connection st; capabilities := capabilities st |}.

Definition set_connection v st :=
  {| location := location st; networkStatus := networkStatus st;
     isInactive := isInactive st; emergencyMode := emergencyMode st;
     logs := logs st; inactivityTimer := inactivityTimer st;
     emergencyTimer := emergencyTimer st; mounted := mounted st;
     updateThrottle := updateThrottle st;
     activityThrottle := activityThrottle st; timers := timers st;
     connection := v; capabilities := capabilities st |}.

(** The render that is current in a state: event handlers of the JSX
    ([onClick]) belong to it. *)
Definition current_render (st : State) : Render :=
  {| seen_networkStatus := networkStatus st;
     seen_emergencyMode := emergencyMode st |}.

(** [setTimeout] and [clearTimeout] on the timer table of the state. *)
Definition schedule (a : Action) (delay now : Z) (st : State) : nat * State :=
  let '(id, t) := setTimeout a delay now (timers st) in (id, set_timers t st).

Definition unschedule (h : option nat) (st : State) : State :=
  set_timers (clearTimeout h (timers st)) st.

(** [addLog] (lines 24-34). *)
Definition addLog (message : string) (now : Z) (st : State) : State :=
  setLogs (addLog_update message now (logs st)) st.

(** ** The location watcher (lines 50-70) *)

(** The test of the updater of [setLocation]. *)
Definition significant (prev : option Location) (latitude longitude : Num.number)
  : bool :=
  match prev with
  | None => true
  | Some p =>
      Num.gt (Num.abs (Num.sub (lat p) latitude)) Num.epsilon
      || Num.gt (Num.abs (Num.sub (lng p) longitude)) Num.epsilon
  end.

Definition geoSuccess (latitude longitude : Num.number) (now : Z) (st : State)
  : State :=
  if negb (mounted st) then st
  else if significant (location st) latitude longitude
  then set_location (Some {| lat := latitude; lng := longitude |})
         (addLog "Location updated" now st)
  else st.

Definition geoError (message : string) (now : Z) (st : State) : State :=
  if negb (mounted st) then st
  else addLog ("Geolocation: " ++ message) now st.

(** ** The arbiter (lines 190-204) *)

(** [triggerEmergency] as created by render [r]. *)
Definition triggerEmergency (r : Render) (reason : string) (now : Z)
  (st : State) : State :=
  if seen_emergencyMode r then st
  else
    let st := setEmergencyMode true st in
    let st := addLog ("EMERGENCY: " ++ reason) now st in
    snd (schedule ResolveEmergency 10000 now st).

(** [simulateAccident] (lines 206-208) is created anew by every render. *)
Definition simulateAccident (now : Z) (st : State) : State :=
  triggerEmergency (current_render st) "MANUAL_TEST" now st.

(** ** The network watcher (lines 91-117 and 179-188) *)

(** [handleNetworkEmergency] as created by render [r]; the [triggerEmergency]
    that its timer calls is the one of the same render. *)
Definition handleNetworkEmergency (r : Render) (now : Z) (st : State) : State :=
  let st := addLog "Poor network detected - monitoring" now st in
  let st := unschedule (emergencyTimer st) st in
  let '(id, st) := schedule (EscalationTimeout r) 30000 now st in
  set_emergencyTimer (Some id) st.

(** [updateNetworkStatus] belongs to an effect with an empty dependency
    list: it is created once, by the first render. *)
Definition updateNetworkStatus (now : Z) (st : State) : State :=
  let status := classify (connection st) in
  let st := setNetworkStatus status st in
  if String.eqb status "very-poor"
  then handleNetworkEmergency first_render now st
  else st.

(** ** The inactivity watcher (lines 153-161) *)

(** [handleActivity] belongs to an effect whose only dependency, [addLog],
    never changes: it is created once, by the first render. *)
Definition handleActivity (now : Z) (st : State) : State :=
  let st := setIsInactive false st in
  let st := unschedule (inactivityTimer st) st in
  let '(id, st) := schedule InactivityTimeout 45000 now st in
  set_inactivityTimer (Some id) st.

(** ** The two throttled listeners (lines 123 and 165) *)

(** Both callbacks ignore the event object they are called with. *)
Definition throttledUpdate (now : Z) (st : State) : State :=
  let '(c, st') :=
    throttled (fun _ : unit => updateNetworkStatus) 5000
      (fun _ => schedule TrailingUpdate) unschedule
      tt now (updateThrottle st) st in
  set_updateThrottle c st'.

Definition throttledHandler (now : Z) (st : State) : State :=
  let '(c, st') :=
    throttled (fun _ : unit => handleActivity) 1000
      (fun _ => schedule TrailingActivity) unschedule
      tt now (activityThrottle st) st in
  set_activityThrottle c st'.

(** ** Running a timer *)

Definition fire (a : Action) (now : Z) (st : State) : State :=
  match a with
  | InitialCheck => updateNetworkStatus now st
  | TrailingUpdate =>
      let '(c, st') :=
        trailing (fun _ : unit => updateNetworkStatus) 5000
          tt now (updateThrottle st) st in
      set_updateThrottle c st'
  | TrailingActivity =>
      let '(c, st') :=
        trailing (fun _ : unit => handleActivity) 1000
          tt now (activityThrottle st) st in
      set_activityThrottle c st'
  | InactivityTimeout =>
      let st := setIsInactive true st in
      let st := addLog "User inactive - possible emergency" now st in
      triggerEmergency first_render "INACTIVITY" now st
  | EscalationTimeout r =>
      if String.eqb (seen_networkStatus r) "very-poor"
      then triggerEmergency r "NETWORK_FAILURE" now st
      else st
  | ResolveEmergency =>
      let st := setEmergencyMode false st in
      addLog "Emergency resolved" now st
  end.

(** ** Events from outside *)

Inductive Event :=
| Click                                   (* the TEST EMERGENCY button *)
| UserInput                               (* mousemove, keydown, scroll, touchstart *)
| ConnectionChange (c : Connection)       (* "change" on navigator.connection *)
| Position (latitude longitude : Num.number)
| PositionError (message : string)
| WorkerMessage (type : string).

Definition handle (ev : Event) (now : Z) (st : State) : State :=
  match ev with
  | Click => simulateAccident now st
  | UserInput => throttledHandler now st
  | ConnectionChange c =>
      let st := set_connection c st in
      if has_connection (capabilities st) then throttledUpdate now st else st
  | Position latitude longitude =>
      if has_geolocation (capabilities st)
      then geoSuccess latitude longitude now st else st
  | PositionError message =>
      if has_geolocation (capabilities st)
      then geoError message now st else st
  | WorkerMessage type =>
      if has_worker (capabilities st) && String.eqb type "HEALTH_CHECK"
      then addLog "Background health check OK" now st else st
  end.

(** ** Mounting: the first render and its four effects *)

Definition initial (caps : Capabilities) (conn : Connection) : State :=
  {| location := None; networkStatus := "checking...";
     isInactive := false; emergencyMode := false; logs := [];
     inactivityTimer := None; emergencyTimer := None; mounted := true;
     updateThrottle := new_closure; activityThrottle := new_closure;
     timers := no_timers; connection := conn; capabilities := caps |}.

Definition mount (caps : Capabilities) (conn : Connection) (now : Z) : State :=
  let st := initial caps conn in
  let st := if has_geolocation caps then st
            else addLog "Geolocation not supported" now st in
  let st := if has_connection caps
            then snd (schedule InitialCheck 2000 now st)
            else setNetworkStatus "API not supported" st in
  if has_worker caps then st
  else addLog "Web Workers not supported - using fallback" now st.

(** ** The passing of time *)

(** A bound on the timers a pending timer can still give rise to. *)
Definition weight (a : Action) : nat :=
  match a with
  | InitialCheck | TrailingUpdate | TrailingActivity => 3
  | InactivityTimeout | EscalationTimeout _ => 2
  | ResolveEmergency => 1
  end.

Definition total_weight (q : list (Timer Action)) : nat :=
  list_sum (map (fun tm => weight (act tm)) q).

(** One turn of the event loop at a time when the timer [tm] is the next
    one: it leaves the table and its closure runs at its due time. *)
Definition turn (tm : Timer Action) (rest : list (Timer Action)) (st : State)
  : State :=
  fire (act tm) (due tm)
    (set_timers {| queue := rest; next_id := next_id (timers st) |} st).

Fixpoint advance_fuel (fuel : nat) (T : Z) (st : State) : State :=
  match fuel with
  | O => st
  | S fuel' =>
      match pop_due T (queue (timers st)) with
      | Some (tm, rest) => advance_fuel fuel' T (turn tm rest st)
      | None => st
      end
  end.

(** Let the clock reach [T]: every timer due by then runs, in order. *)
Definition advance (T : Z) (st : State) : State :=
  advance_fuel (total_weight (queue (timers st))) T st.

(** A history: events with the clock value at which each arrives. *)
Fixpoint run (history : list (Z * Event)) (st : State) : State :=
  match history with
  | [] => st
  | (t, ev) :: history' => run history' (handle ev t (advance t st))
  end.

(* ================================================================== *)
(** * A throttled callback on its own *)

(** [throttle(func, limit)] for an arbitrary callback: the callback works on
    a state of its own, the wrapper's timers live in a table next to it. *)
Section ThrottleAlone.

Context {U A : Type}.
Variable func : A -> Z -> U -> U.
Variable limit : Z.

Record Host := { user : U; table : TimerTable A; closure : Closure }.

Definition host_func (args : A) (now : Z) (h : Host) : Host :=
  {| user := func args now (user h); table := table h;
     closure := closure h |}.

Definition host_defer (args : A) (delay now : Z) (h : Host) : nat * Host :=
  let '(id, t) := setTimeout args delay now (table h) in
  (id, {| user := user h; table := t; closure := closure h |}).

Definition host_cancel (id : option nat) (h : Host) : Host :=
  {| user := user h; table := clearTimeout id (table h);
     closure := closure h |}.

Definition with_closure (c : Closure) (h : Host) : Host :=
  {| user := user h; table := table h; closure := c |}.

(** A host in which [throttle(func, limit)] has just been evaluated. *)
Definition new_host (u : U) : Host :=
  {| user := u; table := no_timers; closure := new_closure |}.

(** A call of the wrapped function at [now]. *)
Definition call (args : A) (now : Z) (h : Host) : Host :=
  let '(c, h') :=
    throttled host_func limit host_defer host_cancel args now (closure h) h in
  with_closure c h'.

(** The pending timer [tm] runs: the deferred closure with its arguments. *)
Definition host_turn (tm : Timer A) (rest : list (Timer A)) (h : Host)
  : Host :=
  let h0 := {| user := user h;
               table := {| queue := rest; next_id := next_id (table h) |};
               closure := closure h |} in
  let '(c, h') :=
    trailing host_func limit (act tm) (due tm) (closure h0) h0 in
  with_closure c h'.

Fixpoint settle_fuel (fuel : nat) (T : Z) (h : Host) : Host :=
  match fuel with
  | O => h
  | S fuel' =>
      match pop_due T (queue (table h)) with
      | Some (tm, rest) => settle_fuel fuel' T (host_turn tm rest h)
      | None => h
      end
  end.

(** Let the clock reach [T]; a deferred closure never sets a timer, so the
    number of pending timers bounds the turns. *)
Definition settle (T : Z) (h : Host) : Host :=
  settle_fuel (List.length (queue (table h))) T h.

(** Calls made one after the other, each at its own clock value, the timers
    due by then having run. *)
Fixpoint calls (l : list (Z * A)) (h : Host) : Host :=
  match l with
  | [] => h
  | (t, args) :: l' => calls l' (call args t (settle t h))
  end.

(** A host inside a window opened by a run at [t1] that left the callback's
    state [u1]: nothing is pending, or one deferred call with the latest
    arguments, due at [t1 + limit]. *)
Inductive in_window (t1 : Z) (u1 : U) : option A -> Host -> Prop :=
| window_fresh h :
    lastRan (closure h) = Some t1 -> user h = u1 -> queue (table h) = [] ->
    in_window t1 u1 None h
| window_pending h id args :
    lastRan (closure h) = Some t1 -> user h = u1 ->
    queue (table h) = [{| tid := id; due := t1 + limit; act := args |}] ->
    lastFunc (closure h) = Some id ->
    in_window t1 u1 (Some args) h.

End ThrottleAlone.

Arguments Host : clear implicits.

(** The callback of the examples records its runs: clock value and
    arguments. *)
Definition record_run (args : string) (now : Z) (runs : list (Z * string))
  : list (Z * string) := runs ++ [(now, args)].

(* ================================================================== *)
(** * What the specification says, for comparison *)

(** "Differs from the last accepted reading by more than 0.0001 degrees" in
    one axis, the difference and the comparison being those of doubles. *)
Definition exceeds (a b : Num.number) : Prop :=
  Num.gt (Num.abs (Num.sub a b)) Num.epsilon = true.

(** When the specification has a reading accepted. *)
Definition accepted (prev : option Location) (r : Location) : Prop :=
  match prev with
  | None => True
  | Some p => exceeds (lat p) (lat r) \/ exceeds (lng p) (lng r)
  end.

(** The component fed a sequence of position readings. *)
Fixpoint feed (readings : list (Z * Location)) (st : State) : State :=
  match readings with
  | [] => st
  | (t, r) :: readings' => feed readings' (geoSuccess (lat r) (lng r) t st)
  end.

(** A log fed a sequence of entries, from the empty log. *)
Definition appended (entries : list LogEntry) : list LogEntry :=
  fold_left (fun l e => addLog_update (snd e) (fst e) l) entries [].

(* ================================================================== *)
(** * Vocabulary for the properties *)

(** Timers whose closure calls [triggerEmergency] past its guard, or sets
    such a timer. *)
Definition may_trigger (a : Action) : bool :=
  match a with
  | TrailingActivity | InactivityTimeout => true
  | EscalationTimeout r => String.eqb (seen_networkStatus r) "very-poor"
  | InitialCheck | TrailingUpdate | ResolveEmergency => false
  end.

Definition is_resolve (a : Action) : bool :=
  match a with ResolveEmergency => true | _ => false end.

Definition is_inactivity (a : Action) : bool :=
  match a with InactivityTimeout => true | _ => false end.

Definition is_trailing_activity (a : Action) : bool :=
  match a with TrailingActivity => true | _ => false end.

Definition is_escalation (a : Action) : bool :=
  match a with EscalationTimeout _ => true | _ => false end.

(** How many pending timers are of a kind. *)
Definition count (kind : Action -> bool) (q : list (Timer Action)) : nat :=
  list_sum (map (fun tm => if kind (act tm) then 1%nat else 0%nat) q).

(** No timer is pending that could trigger or resolve an emergency. *)
Definition calm (st : State) : bool :=
  forallb (fun tm => negb (may_trigger (act tm)) && negb (is_resolve (act tm)))
    (queue (timers st)).

Definition is_user_input (ev : Event) : bool :=
  match ev with UserInput => true | _ => false end.

Definition no_user_input (history : list (Z * Event)) : bool :=
  forallb (fun e => negb (is_user_input (snd e))) history.

(** The messages that the inactivity watcher causes to be logged. *)
Definition inactivity_message (message : string) : bool :=
  String.eqb message "User inactive - possible emergency"
  || String.eqb message "EMERGENCY: INACTIVITY".


(** [s'] differs from [s] in nothing that concerns the inactivity watcher:
    the flag, the ref and the throttle closure are the same, and whatever
    new is pending or logged does not come from it. *)
Definition apart_from_inactivity (s s' : State) : Prop :=
  isInactive s' = isInactive s
  /\ inactivityTimer s' = inactivityTimer s
  /\ activityThrottle s' = activityThrottle s
  /\ (forall x, In x (queue (timers s')) ->
                In x (queue (timers s))
                \/ (is_inactivity (act x) = false
                    /\ is_trailing_activity (act x) = false))
  /\ (forall e, In e (logs s') ->
                In e (logs s) \/ inactivity_message (snd e) = false).

(** The inactivity watcher has never been set off. *)
Definition never_active (s : State) : Prop :=
  isInactive s = false
  /\ inactivityTimer s = None
  /\ activityThrottle s = new_closure
  /\ (forall x, In x (queue (timers s)) ->
                is_inactivity (act x) = false
                /\ is_trailing_activity (act x) = false)
  /\ (forall e, In e (logs s) -> inactivity_message (snd e) = false).

(* ================================================================== *)
(** * Sample data *)

Definition all_capabilities : Capabilities :=
  {| has_geolocation := true; has_connection := true; has_worker := true |}.

(** A 4g connection: 10 Mbps, 50 ms. *)
Definition sample_4g : Connection :=
  {| effectiveType := "4g"; downlink := Num.dyadic 10 0;
     rtt := Num.dyadic 50 0 |}.

(** A connection of the worst tier on every count: slow-2g, 0.25 Mbps,
    2500 ms. *)
Definition sample_worst : Connection :=
  {| effectiveType := "slow-2g"; downlink := Num.dyadic 1 (-2);
     rtt := Num.dyadic 2500 0 |}.

(** Three readings on the meridian 77.25: latitude 12.5, then the doubles
    nearest to 12.50005 and to 12.5002. *)
Definition reading_a : Location :=
  {| lat := Num.dyadic 25 (-1); lng := Num.dyadic 309 (-2) |}.

Definition reading_near : Location :=
  {| lat := S754_finite false 7036902565264071 (-49);
     lng := Num.dyadic 309 (-2) |}.

Definition reading_far : Location :=
  {| lat := S754_finite false 7036987007757084 (-49);
     lng := Num.dyadic 309 (-2) |}.

(** The component five seconds after mounting, the initial check done. *)
Definition settled : State :=
  advance 6000 (mount all_capabilities sample_4g 1000).

(** The same, the button having been pressed at 6500. *)
Definition after_test : State := run [(6500, Click)] settled.

(** A user who moves the pointer once and presses the button 38 seconds
    later; the component is then left alone. *)
Definition pointer_then_button : State :=
  run [(2000, UserInput); (40000, Click)]
    (mount all_capabilities sample_4g 1000).



(** The same user, pressing the button once more at 52000. *)
Definition before_second_press : State := advance 52000 pointer_then_button.

Definition second_press : State := handle Click 52000 before_second_press.

(** [n] heartbeats, one per second. *)
Definition heartbeats (n : nat) : list LogEntry :=
  map (fun i => (1000 * Z.of_nat i, "Background health check OK")) (seq 0 n).

(* ================================================================== *)
(** * Vocabulary for further properties *)

(** A callback that only records its runs, for arguments of any type. *)
Definition note_run {A : Type} (args : A) (now : Z) (runs : list (Z * A))
  : list (Z * A) := runs ++ [(now, args)].

(** Consecutive clock values are at least [limit] apart. *)
Fixpoint spaced (limit : Z) (times : list Z) : bool :=
  match times with
  | a :: (b :: _) as rest => (a + limit <=? b) && spaced limit rest
  | _ => true
  end.

(** The calls come in the order of the clock, none before [t]. *)
Fixpoint ascending {A : Type} (t : Z) (l : list (Z * A)) : bool :=
  match l with
  | [] => true
  | e :: l' => (t <=? fst e) && ascending (fst e) l'
  end.

(** The last of the calls [(t, a) :: later]. *)
Definition final_call {A : Type} (t : Z) (a : A) (later : list (Z * A))
  : Z * A := last later (t, a).

(** A host of [throttle(note_run, limit)] at clock value [now], after a call
    with the arguments [latest]: the callback last ran at [r], its runs are
    spaced, and either nothing is pending and the last run had the latest
    arguments, or one deferred call is pending that carries them, due no
    earlier than [r + limit] and no later than [now + max(0, limit)]. *)
Definition steady {A : Type} (limit now : Z) (latest : A)
  (h : Host (list (Z * A)) A) : Prop :=
  exists r runs a,
    user h = runs ++ [(r, a)]
    /\ lastRan (closure h) = Some r
    /\ 0 < r <= now
    /\ spaced limit (map fst (user h)) = true
    /\ ((queue (table h) = [] /\ a = latest)
        \/ exists id d,
             queue (table h) = [{| tid := id; due := d; act := latest |}]
             /\ lastFunc (closure h) = Some id
             /\ r + limit <= d /\ now <= d <= now + Z.max 0 limit).

Definition is_trailing_update (a : Action) : bool :=
  match a with TrailingUpdate => true | _ => false end.

Definition is_initial_check (a : Action) : bool :=
  match a with InitialCheck => true | _ => false end.

(** The messages that only the escalation of a bad network logs. *)
Definition escalation_message (message : string) : bool :=
  String.eqb message "Poor network detected - monitoring"
  || String.eqb message "EMERGENCY: NETWORK_FAILURE".

(** The values that [networkStatus] is seen to take. *)
Definition known_status (status : string) : bool :=
  String.eqb status "checking..." || String.eqb status "API not supported"
  || String.eqb status "good" || String.eqb status "poor".

(** Every pending timer of a kind is the one whose handle [ref] holds. *)
Definition tracked (kind : Action -> bool) (ref : option nat)
  (q : list (Timer Action)) : Prop :=
  forall x, In x q -> kind (act x) = true -> ref = Some (tid x).

(** The state with the timer queue replaced: what is left when a timer has
    been taken out to run. *)
Definition with_queue (rest : list (Timer Action)) (st : State) : State :=
  set_timers {| queue := rest; next_id := next_id (timers st) |} st.

(** The state changes that the event handlers and the timers are made of.
    Sequences that belong together in the source are one change: raising an
    emergency (lines 194-201), re-arming the countdown (lines 154-160),
    deferring a throttled call (lines 264-270), resolving (lines 199-200). *)
Inductive changes : State -> State -> Prop :=
| changes_none s : changes s s
| changes_then s1 s2 s3 : changes s1 s2 -> changes s2 s3 -> changes s1 s3
| changes_location v s : changes s (set_location v s)
| changes_connection c s : changes s (set_connection c s)
| changes_inactive v s : changes s (setIsInactive v s)
| changes_log message now s :
    escalation_message message = false -> changes s (addLog message now s)
| changes_raise reason now s :
    escalation_message ("EMERGENCY: " ++ reason) = false ->
    changes s
      (snd (schedule ResolveEmergency 10000 now
              (addLog ("EMERGENCY: " ++ reason) now (setEmergencyMode true s))))
| changes_rearm now s : changes s (handleActivity now s)
| changes_ran_activity now s :
    changes s (set_activityThrottle (set_lastRan now (activityThrottle s)) s)
| changes_ran_update now s :
    changes s (set_updateThrottle (set_lastRan now (updateThrottle s)) s)
| changes_defer_activity delay now s :
    let deferred := schedule TrailingActivity delay now
                      (unschedule (lastFunc (activityThrottle s)) s) in
    changes s
      (set_activityThrottle
         (set_lastFunc (fst deferred) (activityThrottle s)) (snd deferred))
| changes_defer_update delay now s :
    has_connection (capabilities s) = true ->
    let deferred := schedule TrailingUpdate delay now
                      (unschedule (lastFunc (updateThrottle s)) s) in
    changes s
      (set_updateThrottle
         (set_lastFunc (fst deferred) (updateThrottle s)) (snd deferred))
| changes_classify s :
    has_connection (capabilities s) = true ->
    changes s (setNetworkStatus (classify (connection s)) s)
| changes_drop tm rest s :
    pop_earliest (queue (timers s)) = Some (tm, rest) ->
    is_resolve (act tm) = false ->
    changes s (with_queue rest s)
| changes_resolve tm rest s :
    pop_earliest (queue (timers s)) = Some (tm, rest) ->
    act tm = ResolveEmergency ->
    changes s
      (addLog "Emergency resolved" (due tm)
         (setEmergencyMode false (with_queue rest s))).

(** Timers and network watcher are in order: each countdown and each
    deferred call is the one its handle holds and there is at most one of
    each; nothing of the escalation exists; the status is a known one, and
    without the Network Information API nothing of the network watcher is
    pending; the log is within its bound. *)
Definition orderly (st : State) : Prop :=
  let q := queue (timers st) in
  tracked is_inactivity (inactivityTimer st) q
  /\ tracked is_trailing_activity (lastFunc (activityThrottle st)) q
  /\ tracked is_trailing_update (lastFunc (updateThrottle st)) q
  /\ (count is_inactivity q <= 1)%nat
  /\ (count is_trailing_activity q <= 1)%nat
  /\ (count is_trailing_update q <= 1)%nat
  /\ (count is_initial_check q <= 1)%nat
  /\ count is_escalation q = O
  /\ emergencyTimer st = None
  /\ known_status (networkStatus st) = true
  /\ (has_connection (capabilities st) = false ->
      networkStatus st = "API not supported"
      /\ count is_initial_check q = O /\ count is_trailing_update q = O)
  /\ existsb (fun e => escalation_message (snd e)) (logs st) = false
  /\ (List.length (logs st) <= 21)%nat.

(** A handle is below [n] when it was handed out before the [n]-th timer. *)
Definition below (ref : option nat) (n : nat) : Prop :=
  forall id, ref = Some id -> (id < n)%nat.

(** [initTimer], the handle that line 120 receives: with the Network
    Information API the initial check is the first timer the component
    sets. *)
Definition initTimer : nat := 0.

(** Timer handles are accounted for: every pending timer and every handle
    the component keeps was handed out already; a kept handle is that of no
    pending timer but one of its own kind; the initial check, and nothing
    else, has the handle [initTimer]; and an active emergency has a
    resolution pending. *)
Definition accounted (st : State) : Prop :=
  let q := queue (timers st) in
  let n := next_id (timers st) in
  (forall x, In x q -> (tid x < n)%nat)
  /\ below (inactivityTimer st) n
  /\ below (lastFunc (activityThrottle st)) n
  /\ below (lastFunc (updateThrottle st)) n
  /\ (forall x, In x q ->
        (inactivityTimer st = Some (tid x) -> is_inactivity (act x) = true)
        /\ (lastFunc (activityThrottle st) = Some (tid x) ->
            is_trailing_activity (act x) = true)
        /\ (lastFunc (updateThrottle st) = Some (tid x) ->
            is_trailing_update (act x) = true))
  /\ (has_connection (capabilities st) = true ->
      (1 <= n)%nat
      /\ forall x, In x q ->
           (tid x = initTimer <-> is_initial_check (act x) = true))
  /\ (emergencyMode st = true -> (1 <= count is_resolve q)%nat).

(** The longest time from the run of a timer to the run of the last timer
    that descends from it: a deferred activity call arms the countdown
    (45000), whose end raises the emergency that is resolved 10000 later. *)
Definition slack (a : Action) : Z :=
  match a with
  | TrailingActivity => 55000
  | InactivityTimeout | EscalationTimeout _ => 10000
  | InitialCheck | TrailingUpdate | ResolveEmergency => 0
  end.

(** Every pending timer and its descendants will have run by [T]. *)
Definition at_rest_by (T : Z) (st : State) : bool :=
  forallb (fun x => due x + slack (act x) <=? T) (queue (timers st)).

(** ** Unmounting *)

(** The flag [mounted] of the geolocation effect (line 43). *)
Definition set_mounted v st :=
  {| location := location st; networkStatus := networkStatus st;
     isInactive := isInactive st; emergencyMode := emergencyMode st;
     logs := logs st; inactivityTimer := inactivityTimer st;
     emergencyTimer := emergencyTimer st; mounted := v;
     updateThrottle := updateThrottle st;
     activityThrottle := activityThrottle st; timers := timers st;
     connection := connection st; capabilities := capabilities st |}.

(** Unmounting: the cleanup functions of the effects, in the order of the
    effects.  What they do to the platform (the position watch is cleared,
    the listeners are removed, the worker is terminated) shows in that no
    such event arrives any more; what they do to the component is:
    [mounted = false] (line 79), [clearTimeout(initTimer)] (line 127) and
    [clearTimeout(inactivityTimer.current)] (line 175).  An effect that
    returned early has no cleanup. *)
Definition cleanup (st : State) : State :=
  let st := if has_geolocation (capabilities st)
            then set_mounted false st else st in
  let st := if has_connection (capabilities st)
            then unschedule (Some initTimer) st else st in
  unschedule (inactivityTimer st) st.

(** A platform without the Network Information API. *)
Definition no_network_api : Capabilities :=
  {| has_geolocation := true; has_connection := false; has_worker := true |}.

(** Connection changes and a press of the button. *)
Definition changes_and_press : list (Z * Event) :=
  [(5000, ConnectionChange sample_worst); (6000, Click);
   (7000, ConnectionChange sample_4g)].

(** Two pointer moves half a second apart: the second one is deferred. *)
Definition two_moves : list (Z * Event) :=
  [(2000, UserInput); (2500, UserInput)].

(** Calls of a throttled function after the first one at 1000. *)
Definition later_calls : list (Z * string) :=
  [(1200, "b"); (1900, "c"); (2600, "d"); (7000, "e")].

(** A pointer move, then a press of the button much later. *)
Definition move_then_press : list (Z * Event) :=
  [(2000, UserInput); (40000, Click)].

(* ================================================================== *)
(** * Properties *)

(** ** Strings and numbers *)

Lemma prefix_app_includes (a b s : string) :
  prefix (a ++ b)%string s = true -> includes b s = true.
Proof.
  revert s; induction a as [|ch a IH]; intros s H.
  - cbn [append] in H. destruct s; cbn [includes]; rewrite H; reflexivity.
  - destruct s as [|ch' s]; simpl in H; [discriminate|].
    destruct (ascii_dec ch ch'); [|discriminate].
    cbn [includes]. rewrite (IH _ H). apply orb_true_r.
Qed.

Lemma includes_app_r (a b s : string) :
  includes (a ++ b)%string s = true -> includes b s = true.
Proof.
  induction s as [|ch s IH]; intros H.
  - cbn [includes] in H. rewrite orb_false_r in H.
    apply (prefix_app_includes a b). exact H.
  - cbn [includes] in H. apply orb_true_iff in H. destruct H as [H|H].
    + apply (prefix_app_includes a b). exact H.
    + cbn [includes]. rewrite (IH H). apply orb_true_r.
Qed.

Lemma includes_slow_2g (s : string) :
  includes "slow-2g" s = true -> includes "2g" s = true.
Proof. apply (includes_app_r "slow-" "2g"). Qed.

Lemma lt_half_lt_one (x : Num.number) :
  Num.lt x Num.half = true -> Num.lt x Num.one = true.
Proof.
  unfold Num.lt, Num.half, Num.one, SFltb, SFcompare.
  destruct x as [s|s| |s m e].
  - destruct s; intros H; exact H.
  - destruct s; intros H; exact H.
  - intros H; exact H.
  - destruct s; [intros; reflexivity|].
    destruct (Z.compare_spec e (-53)) as [He|He|He].
    + subst e. intros _. reflexivity.
    + intros _.
      destruct (Z.compare_spec e (-52)) as [H1|H1|H1];
        [lia|reflexivity|lia].
    + intros H; discriminate H.
Qed.

Lemma gt_two_thousand_gt_thousand (x : Num.number) :
  Num.gt x Num.two_thousand = true -> Num.gt x Num.thousand = true.
Proof.
  unfold Num.gt, Num.two_thousand, Num.thousand, SFltb, SFcompare.
  destruct x as [s|s| |s m e].
  - destruct s; intros H; exact H.
  - destruct s; intros H; exact H.
  - intros H; exact H.
  - destruct s; [intros H; exact H|].
    destruct (Z.compare_spec (-42) e) as [He|He|He].
    + subst e. intros _. reflexivity.
    + intros _.
      destruct (Z.compare_spec (-43) e) as [H1|H1|H1];
        [lia|reflexivity|lia].
    + intros H; discriminate H.
Qed.

Lemma very_poor_is_poor (c : Connection) :
  very_poor_condition c = true -> poor_condition c = true.
Proof.
  unfold very_poor_condition, poor_condition. intros H.
  apply orb_true_iff in H. destruct H as [H|H].
  - apply orb_true_iff in H. destruct H as [H|H].
    + rewrite (includes_slow_2g _ H). reflexivity.
    + rewrite (lt_half_lt_one _ H). rewrite orb_true_r. reflexivity.
  - rewrite (gt_two_thousand_gt_thousand _ H). apply orb_true_r.
Qed.

(** ** Classification of the network *)

Lemma classify_not_very_poor (c : Connection) : classify c <> "very-poor".
Proof.
  unfold classify.
  destruct (poor_condition c) eqn:Hp; [discriminate|].
  destruct (very_poor_condition c) eqn:Hv; [|discriminate].
  rewrite (very_poor_is_poor c Hv) in Hp. discriminate Hp.
Qed.

Lemma updateNetworkStatus_sets_status (now : Z) (st : State) :
  updateNetworkStatus now st = setNetworkStatus (classify (connection st)) st.
Proof.
  unfold updateNetworkStatus.
  destruct (String.eqb_spec (classify (connection st)) "very-poor") as [H|H].
  - destruct (classify_not_very_poor _ H).
  - reflexivity.
Qed.

(** C2. The status that [updateNetworkStatus] stores depends on the triple
    (effectiveType, downlink, rtt) alone; it is one of good, poor and
    very-poor; the poor condition is looked at first, so a sample that meets
    it is poor, also when it meets the very-poor condition as well, and a
    sample that meets neither condition is good. *)
Theorem classification_follows_check_order (c : Connection) :
  (classify c = "good" \/ classify c = "poor" \/ classify c = "very-poor")
  /\ (poor_condition c = true -> classify c = "poor")
  /\ (poor_condition c = true -> very_poor_condition c = true ->
      classify c = "poor" /\ classify c <> "very-poor")
  /\ (poor_condition c = false -> very_poor_condition c = false ->
      classify c = "good")
  /\ (forall now st,
        connection st = c -> networkStatus (updateNetworkStatus now st) = classify c)
  /\ (forall now1 now2 st1 st2,
        connection st1 = c -> connection st2 = c ->
        networkStatus (updateNetworkStatus now1 st1)
        = networkStatus (updateNetworkStatus now2 st2)).
Proof.
  assert (Hstatus : forall now st, connection st = c ->
            networkStatus (updateNetworkStatus now st) = classify c).
  { intros now st <-. rewrite updateNetworkStatus_sets_status. reflexivity. }
  repeat split.
  - unfold classify.
    destruct (poor_condition c); [right; left; reflexivity|].
    destruct (very_poor_condition c); [right; right|left]; reflexivity.
  - intros Hp. unfold classify. rewrite Hp. reflexivity.
  - unfold classify. rewrite H. reflexivity.
  - unfold classify. rewrite H. discriminate.
  - intros Hp Hv. unfold classify. rewrite Hp, Hv. reflexivity.
  - exact Hstatus.
  - intros now1 now2 st1 st2 H1 H2.
    rewrite (Hstatus now1 st1 H1), (Hstatus now2 st2 H2). reflexivity.
Qed.

Lemma classification_follows_check_order_witness :
  (classify sample_worst = "poor" /\ classify sample_worst <> "very-poor")
  /\ classify sample_4g = "good"
  /\ networkStatus
       (updateNetworkStatus 3000 (mount all_capabilities sample_worst 1000))
     = classify sample_worst.
Proof.
  split; [|split].
  - apply (proj1 (proj2 (proj2 (classification_follows_check_order sample_worst))));
      reflexivity.
  - apply (proj1 (proj2 (proj2 (proj2
             (classification_follows_check_order sample_4g)))));
      reflexivity.
  - apply (proj1 (proj2 (proj2 (proj2 (proj2
             (classification_follows_check_order sample_worst))))) 3000).
    reflexivity.
Defined.

(** C9. No sample is classified very-poor: each alternative of the very-poor
    test implies one of the poor test, which is made first (a string that
    contains "slow-2g" contains "2g", a downlink below 0.5 is below 1, a
    round trip above 2000 is above 1000).  So [updateNetworkStatus] only
    stores the status and never calls [handleNetworkEmergency]: no log entry
    is written and no timer is set. *)
Theorem very_poor_is_unreachable (c : Connection) :
  classify c <> "very-poor"
  /\ (includes "slow-2g" (effectiveType c) = true ->
      includes "2g" (effectiveType c) = true)
  /\ (Num.lt (downlink c) Num.half = true -> Num.lt (downlink c) Num.one = true)
  /\ (Num.gt (rtt c) Num.two_thousand = true ->
      Num.gt (rtt c) Num.thousand = true)
  /\ (forall now st,
        connection st = c ->
        updateNetworkStatus now st = setNetworkStatus (classify c) st
        /\ logs (updateNetworkStatus now st) = logs st
        /\ timers (updateNetworkStatus now st) = timers st
        /\ emergencyTimer (updateNetworkStatus now st) = emergencyTimer st).
Proof.
  split; [apply classify_not_very_poor|].
  split; [apply includes_slow_2g|].
  split; [apply lt_half_lt_one|].
  split; [apply gt_two_thousand_gt_thousand|].
  intros now st <-. rewrite updateNetworkStatus_sets_status.
  repeat split.
Qed.

Lemma very_poor_is_unreachable_witness :
  includes "2g" (effectiveType sample_worst) = true
  /\ Num.lt (downlink sample_worst) Num.one = true
  /\ Num.gt (rtt sample_worst) Num.thousand = true
  /\ timers (updateNetworkStatus 3000 (initial all_capabilities sample_worst))
     = timers (initial all_capabilities sample_worst).
Proof.
  pose proof (very_poor_is_unreachable sample_worst) as [_ [H1 [H2 [H3 H4]]]].
  split; [apply H1; reflexivity|].
  split; [apply H2; reflexivity|].
  split; [apply H3; reflexivity|].
  apply (H4 3000 (initial all_capabilities sample_worst)). reflexivity.
Defined.

(** ** The bounded log *)


Lemma addLog_update_length (message : string) (now : Z) (prev : list LogEntry) :
  (List.length prev <= 21)%nat ->
  (List.length (addLog_update message now prev) <= 21)%nat.
Proof.
  intros Hlen. unfold addLog_update, slice_last.
  destruct (Nat.ltb_spec 20 (List.length prev)) as [H|H];
    rewrite length_app; [rewrite length_skipn|]; simpl; lia.
Qed.






(** The bound is reached: the twenty-first entry is kept, and the
    twenty-second makes the two oldest leave. *)
Example log_reaches_twenty_one :
  List.length (appended (heartbeats 21)) = 21%nat
  /\ appended (heartbeats 22) = skipn 2 (heartbeats 22).
Proof. vm_compute. split; reflexivity. Qed.

(** ** The location filter *)

(** [Num.epsilon] is a valid double within half a unit in the last place of
    one ten-thousandth: it is the double that the literal [0.0001] denotes. *)
Lemma epsilon_is_nearest_double :
  valid_binary 53 1024 Num.epsilon = true
  /\ exists m, Num.epsilon = S754_finite false m (-66)
               /\ 2 * Z.abs (Zpos m * 10000 - 2 ^ 66) <= 10000.
Proof.
  split; [reflexivity|]. eexists. split; [reflexivity|].
  vm_compute. discriminate.
Qed.

Lemma not_exceeds_self (x : Num.number) :
  Num.gt (Num.abs (Num.sub x x)) Num.epsilon = false.
Proof.
  destruct x as [s|s| |s m e].
  - destruct s; reflexivity.
  - destruct s; reflexivity.
  - reflexivity.
  - unfold Num.sub, SFsub. cbv zeta. rewrite Z.sub_diag. reflexivity.
Qed.

Lemma significant_accepted (prev : option Location) (r : Location) :
  significant prev (lat r) (lng r) = true <-> accepted prev r.
Proof.
  unfold significant, accepted, exceeds. destruct prev as [p|].
  - apply orb_true_iff.
  - split; trivial.
Qed.

Lemma accepted_changes (prev : option Location) (r : Location) :
  accepted prev r -> Some r <> prev.
Proof.
  destruct prev as [p|]; [|discriminate].
  intros Hacc Heq. injection Heq as ->.
  unfold accepted, exceeds in Hacc.
  rewrite !not_exceeds_self in Hacc. destruct Hacc; discriminate.
Qed.

Lemma geoSuccess_mounted lat0 lng0 now st :
  mounted (geoSuccess lat0 lng0 now st) = mounted st.
Proof.
  unfold geoSuccess. destruct (mounted st) eqn:Hm; simpl; [|exact Hm].
  destruct (significant (location st) lat0 lng0); simpl; exact Hm.
Qed.

Lemma feed_mounted readings st : mounted (feed readings st) = mounted st.
Proof.
  revert st. induction readings as [|[t r] readings IH]; intros st.
  - reflexivity.
  - simpl. rewrite IH. apply geoSuccess_mounted.
Qed.

(** C7. After any sequence of readings, the next reading changes the stored
    location exactly when it is accepted: no location is stored yet, or its
    latitude or its longitude is more than 0.0001 away from the stored one.
    An accepted reading becomes the stored location and appends the entry
    "Location updated" to the log; any other reading leaves the whole state,
    log included, as it was. *)
Theorem location_changes_iff_significant
  (readings : list (Z * Location)) (st : State) (r : Location) (now : Z) :
  mounted st = true ->
  let st0 := feed readings st in
  let st1 := geoSuccess (lat r) (lng r) now st0 in
  (location st1 <> location st0 <-> accepted (location st0) r)
  /\ (accepted (location st0) r ->
      location st1 = Some r
      /\ logs st1 = addLog_update "Location updated" now (logs st0))
  /\ (~ accepted (location st0) r -> st1 = st0).
Proof.
  intros Hm st0 st1.
  assert (Hm0 : mounted st0 = true) by (unfold st0; rewrite feed_mounted; exact Hm).
  assert (Hyes : accepted (location st0) r ->
                 location st1 = Some r
                 /\ logs st1 = addLog_update "Location updated" now (logs st0)).
  { intros Hacc. apply significant_accepted in Hacc.
    unfold st1, geoSuccess. rewrite Hm0, Hacc. simpl.
    destruct r; split; reflexivity. }
  assert (Hno : ~ accepted (location st0) r -> st1 = st0).
  { intros Hacc. unfold st1, geoSuccess. rewrite Hm0. simpl.
    destruct (significant (location st0) (lat r) (lng r)) eqn:Hs;
      [|reflexivity].
    destruct Hacc. apply significant_accepted. exact Hs. }
  split; [|split; assumption].
  split.
  - intros Hchg.
    destruct (significant (location st0) (lat r) (lng r)) eqn:Hs.
    + apply significant_accepted. exact Hs.
    + destruct Hchg. rewrite Hno; [reflexivity|].
      intros Hacc. apply significant_accepted in Hacc. congruence.
  - intros Hacc. rewrite (proj1 (Hyes Hacc)). apply accepted_changes. exact Hacc.
Qed.

Lemma location_changes_iff_significant_witness :
  location (geoSuccess (lat reading_far) (lng reading_far) 9000
              (feed [(5000, reading_a); (7000, reading_near)]
                 (mount all_capabilities sample_4g 1000)))
  = Some reading_far.
Proof.
  refine (proj1 (proj1 (proj2
    (location_changes_iff_significant
       [(5000, reading_a); (7000, reading_near)]
       (mount all_capabilities sample_4g 1000) reading_far 9000 _)) _)).
  - reflexivity.
  - left. vm_compute. reflexivity.
Defined.

(** ** Timers: which one runs next *)

Section TimerFacts.

Context {Act : Type}.
Implicit Types (q rest : list (Timer Act)) (tm : Timer Act).

Lemma pop_earliest_none q : pop_earliest q = None -> q = [].
Proof.
  destruct q as [|tm q]; [reflexivity|]. simpl.
  destruct (pop_earliest q) as [[tm' rest]|]; [|discriminate].
  destruct (due tm <=? due tm'); discriminate.
Qed.

Lemma pop_earliest_in q tm rest :
  pop_earliest q = Some (tm, rest) ->
  forall x, In x q <-> x = tm \/ In x rest.
Proof.
  revert tm rest. induction q as [|hd q IH]; intros tm rest H x.
  - discriminate H.
  - simpl in H. destruct (pop_earliest q) as [[tm' rest']|] eqn:Hq.
    + specialize (IH tm' rest' eq_refl x).
      destruct (due hd <=? due tm'); injection H as <- <-; simpl.
      * intuition congruence.
      * intuition congruence.
    + injection H as <- <-. apply pop_earliest_none in Hq. subst q.
      simpl. intuition congruence.
Qed.

Lemma pop_earliest_min q tm rest :
  pop_earliest q = Some (tm, rest) ->
  forall x, In x q -> due tm <= due x.
Proof.
  revert tm rest. induction q as [|hd q IH]; intros tm rest H x Hx.
  - discriminate H.
  - simpl in H. destruct (pop_earliest q) as [[tm' rest']|] eqn:Hq.
    + specialize (IH tm' rest' eq_refl).
      destruct (Z.leb_spec (due hd) (due tm')) as [Hle|Hlt];
        injection H as <- <-; destruct Hx as [<-|Hx];
        try lia; specialize (IH x Hx); lia.
    + injection H as <- <-. apply pop_earliest_none in Hq. subst q.
      destruct Hx as [<-|[]]. lia.
Qed.

(** Measures that add up over the queue are kept by the choice. *)
Lemma pop_earliest_sum (f : Timer Act -> nat) q tm rest :
  pop_earliest q = Some (tm, rest) ->
  list_sum (map f q) = (f tm + list_sum (map f rest))%nat.
Proof.
  revert tm rest. induction q as [|hd q IH]; intros tm rest H.
  - discriminate H.
  - simpl in H. destruct (pop_earliest q) as [[tm' rest']|] eqn:Hq.
    + specialize (IH tm' rest' eq_refl).
      destruct (due hd <=? due tm'); injection H as <- <-; simpl; lia.
    + injection H as <- <-. apply pop_earliest_none in Hq. subst q.
      reflexivity.
Qed.

Lemma pop_due_some T q tm rest :
  pop_due T q = Some (tm, rest) ->
  pop_earliest q = Some (tm, rest) /\ due tm <= T.
Proof.
  unfold pop_due. destruct (pop_earliest q) as [[tm' rest']|]; [|discriminate].
  destruct (Z.leb_spec (due tm') T) as [Hle|Hlt]; [|discriminate].
  intros H. injection H as <- <-. split; [reflexivity|assumption].
Qed.

Lemma pop_due_none T q : pop_due T q = None -> forall x, In x q -> T < due x.
Proof.
  unfold pop_due. destruct (pop_earliest q) as [[tm rest]|] eqn:Hq.
  - destruct (Z.leb_spec (due tm) T); [discriminate|].
    intros _ x Hx. pose proof (pop_earliest_min q tm rest Hq x Hx). lia.
  - intros _ x Hx. apply pop_earliest_none in Hq. subst q. destruct Hx.
Qed.

Lemma pop_due_not_due T q :
  (forall x, In x q -> T < due x) -> pop_due T q = None.
Proof.
  intros H. unfold pop_due.
  destruct (pop_earliest q) as [[tm rest]|] eqn:Hq; [|reflexivity].
  assert (Hin : In tm q) by (apply (pop_earliest_in q tm rest Hq); left; reflexivity).
  specialize (H tm Hin). destruct (Z.leb_spec (due tm) T); [lia|reflexivity].
Qed.

End TimerFacts.

(** ** The passing of time: every due timer runs *)

Lemma total_weight_app (q1 q2 : list (Timer Action)) :
  total_weight (q1 ++ q2) = (total_weight q1 + total_weight q2)%nat.
Proof. unfold total_weight. rewrite map_app, list_sum_app. reflexivity. Qed.

Lemma total_weight_filter (p : Timer Action -> bool) (q : list (Timer Action)) :
  (total_weight (filter p q) <= total_weight q)%nat.
Proof.
  unfold total_weight. induction q as [|tm q IH]; simpl; [lia|].
  destruct (p tm); simpl; lia.
Qed.

Lemma total_weight_unschedule (h : option nat) (st : State) :
  (total_weight (queue (timers (unschedule h st)))
   <= total_weight (queue (timers st)))%nat.
Proof.
  destruct h as [id|]; simpl; [apply total_weight_filter|lia].
Qed.

Lemma weight_positive (a : Action) : (1 <= weight a)%nat.
Proof. destruct a; simpl; lia. Qed.

Lemma weight_triggerEmergency r reason now st :
  (total_weight (queue (timers (triggerEmergency r reason now st)))
   <= total_weight (queue (timers st)) + 1)%nat.
Proof.
  unfold triggerEmergency. destruct (seen_emergencyMode r); simpl; [lia|].
  rewrite total_weight_app. unfold total_weight. simpl. lia.
Qed.

Lemma weight_handleActivity now st :
  (total_weight (queue (timers (handleActivity now st)))
   <= total_weight (queue (timers st)) + 2)%nat.
Proof.
  unfold handleActivity. simpl. rewrite total_weight_app.
  pose proof (total_weight_unschedule (inactivityTimer st) st) as H.
  simpl in H. unfold total_weight in *. simpl. lia.
Qed.

Lemma weight_fire (a : Action) (now : Z) (st : State) :
  (total_weight (queue (timers (fire a now st))) + 1
   <= weight a + total_weight (queue (timers st)))%nat.
Proof.
  destruct a; cbn [fire weight].
  - rewrite updateNetworkStatus_sets_status. simpl. lia.
  - unfold trailing, run_now. destruct (lastRan (updateThrottle st)) as [r|];
      [destruct (5000 <=? now - r)|]; simpl;
      try rewrite updateNetworkStatus_sets_status; simpl; lia.
  - unfold trailing, run_now.
    destruct (lastRan (activityThrottle st)) as [r|];
      [destruct (1000 <=? now - r)|]; cbn [set_activityThrottle timers];
      try lia.
    pose proof (weight_handleActivity now st). lia.
  - match goal with
    | |- context [triggerEmergency ?r ?reason ?n ?s] =>
        pose proof (weight_triggerEmergency r reason n s) as H
    end.
    simpl in *. lia.
  - destruct (String.eqb (seen_networkStatus r) "very-poor"); [|lia].
    pose proof (weight_triggerEmergency r "NETWORK_FAILURE" now st). lia.
  - simpl. lia.
Qed.

Lemma weight_turn tm rest st :
  pop_earliest (queue (timers st)) = Some (tm, rest) ->
  (total_weight (queue (timers (turn tm rest st)))
   < total_weight (queue (timers st)))%nat.
Proof.
  intros Hpop. unfold turn.
  pose proof (weight_fire (act tm) (due tm)
    (set_timers {| queue := rest; next_id := next_id (timers st) |} st)) as H.
  cbn [set_timers timers queue] in H.
  assert (Hsum : total_weight (queue (timers st))
                 = (weight (act tm) + total_weight rest)%nat)
    by (apply (pop_earliest_sum (fun x => weight (act x)) _ _ _ Hpop)).
  lia.
Qed.

(** With fuel for every pending timer and its descendants, no timer that is
    due is left. *)
Lemma advance_fuel_complete (T : Z) (fuel : nat) (st : State) :
  (total_weight (queue (timers st)) <= fuel)%nat ->
  pop_due T (queue (timers (advance_fuel fuel T st))) = None.
Proof.
  revert st. induction fuel as [|fuel IH]; intros st Hw.
  - simpl. destruct (queue (timers st)) as [|tm q]; [reflexivity|].
    pose proof (weight_positive (act tm)).
    unfold total_weight in Hw. simpl in Hw. lia.
  - simpl. destruct (pop_due T (queue (timers st))) as [[tm rest]|] eqn:Hpop;
      [|exact Hpop].
    apply IH. apply pop_due_some in Hpop. destruct Hpop as [Hpop _].
    pose proof (weight_turn tm rest st Hpop). lia.
Qed.

Lemma advance_complete (T : Z) (st : State) :
  forall tm, In tm (queue (timers (advance T st))) -> T < due tm.
Proof.
  apply pop_due_none. unfold advance. apply advance_fuel_complete. lia.
Qed.

(** What every turn keeps is kept by the passing of time. *)
Lemma advance_fuel_invariant (P : State -> Prop) (T : Z) :
  (forall st tm rest,
      P st -> pop_due T (queue (timers st)) = Some (tm, rest) ->
      P (turn tm rest st)) ->
  forall fuel st, P st -> P (advance_fuel fuel T st).
Proof.
  intros Hstep. induction fuel as [|fuel IH]; intros st HP; simpl; [exact HP|].
  destruct (pop_due T (queue (timers st))) as [[tm rest]|] eqn:Hpop;
    [|exact HP].
  apply IH. apply (Hstep st tm rest HP Hpop).
Qed.

Lemma advance_invariant (P : State -> Prop) (T : Z) :
  (forall st tm rest,
      P st -> pop_due T (queue (timers st)) = Some (tm, rest) ->
      P (turn tm rest st)) ->
  forall st, P st -> P (advance T st).
Proof. intros Hstep st. apply advance_fuel_invariant. exact Hstep. Qed.

Lemma advance_nothing_due (T : Z) (st : State) :
  (forall tm, In tm (queue (timers st)) -> T < due tm) -> advance T st = st.
Proof.
  intros H. unfold advance.
  destruct (total_weight (queue (timers st))); simpl; [reflexivity|].
  rewrite (pop_due_not_due T _ H). reflexivity.
Qed.

(** ** What a turn does, by the kind of the timer *)

Lemma count_none kind (q : list (Timer Action)) :
  count kind q = O -> forall x, In x q -> kind (act x) = false.
Proof.
  unfold count. induction q as [|tm q IH]; intros H x Hx; [destruct Hx|].
  simpl in H. destruct Hx as [<-|Hx].
  - destruct (kind (act tm)); [discriminate|reflexivity].
  - apply IH; [lia|exact Hx].
Qed.

Lemma count_none_intro kind (q : list (Timer Action)) :
  (forall x, In x q -> kind (act x) = false) -> count kind q = O.
Proof.
  unfold count. induction q as [|tm q IH]; intros H; [reflexivity|].
  simpl. rewrite (H tm (or_introl eq_refl)). simpl.
  apply IH. intros x Hx. apply H. right. exact Hx.
Qed.

Lemma count_some kind (q : list (Timer Action)) :
  (1 <= count kind q)%nat -> exists x, In x q /\ kind (act x) = true.
Proof.
  unfold count. induction q as [|tm q IH]; simpl; intros H; [lia|].
  destruct (kind (act tm)) eqn:Hk.
  - exists tm. split; [left; reflexivity|exact Hk].
  - destruct (IH H) as [x [Hx Hkx]]. exists x. split; [right|]; assumption.
Qed.

Lemma count_app kind (q1 q2 : list (Timer Action)) :
  count kind (q1 ++ q2) = (count kind q1 + count kind q2)%nat.
Proof. unfold count. rewrite map_app, list_sum_app. reflexivity. Qed.

Lemma count_pop kind (q rest : list (Timer Action)) tm :
  pop_earliest q = Some (tm, rest) ->
  count kind q = ((if kind (act tm) then 1 else 0) + count kind rest)%nat.
Proof.
  intros H. unfold count.
  apply (pop_earliest_sum (fun x => if kind (act x) then 1%nat else 0%nat) _ _ _ H).
Qed.

(** A timer of the network watcher, or an escalation that saw a status
    other than very-poor, changes nothing the arbiter or the inactivity
    watcher depend on. *)
Lemma turn_harmless tm rest st :
  may_trigger (act tm) = false -> is_resolve (act tm) = false ->
  let st' := turn tm rest st in
  emergencyMode st' = emergencyMode st /\ logs st' = logs st
  /\ isInactive st' = isInactive st /\ queue (timers st') = rest
  /\ inactivityTimer st' = inactivityTimer st
  /\ activityThrottle st' = activityThrottle st.
Proof.
  unfold turn. destruct (act tm) as [| | | |r|]; try discriminate;
    intros Ht _; cbn [fire].
  - rewrite updateNetworkStatus_sets_status. repeat split.
  - unfold trailing, run_now. cbn [updateThrottle set_timers].
    destruct (lastRan (updateThrottle st)) as [ran|];
      [destruct (5000 <=? due tm - ran)|];
      try rewrite updateNetworkStatus_sets_status; repeat split.
  - cbn [may_trigger] in Ht. rewrite Ht. repeat split.
Qed.

Lemma turn_resolve tm rest st :
  act tm = ResolveEmergency ->
  let st' := turn tm rest st in
  emergencyMode st' = false
  /\ logs st' = addLog_update "Emergency resolved" (due tm) (logs st)
  /\ isInactive st' = isInactive st /\ queue (timers st') = rest
  /\ inactivityTimer st' = inactivityTimer st
  /\ activityThrottle st' = activityThrottle st.
Proof. unfold turn. intros ->. repeat split. Qed.

Lemma turn_inactivity tm rest st :
  act tm = InactivityTimeout ->
  let st' := turn tm rest st in
  emergencyMode st' = true /\ isInactive st' = true
  /\ logs st' = addLog_update "EMERGENCY: INACTIVITY" (due tm)
                  (addLog_update "User inactive - possible emergency" (due tm)
                     (logs st))
  /\ queue (timers st')
     = rest ++ [{| tid := next_id (timers st); due := due tm + 10000;
                   act := ResolveEmergency |}]
  /\ inactivityTimer st' = inactivityTimer st
  /\ activityThrottle st' = activityThrottle st.
Proof. unfold turn. intros ->. repeat split. Qed.

(** ** The arbiter *)

Lemma calm_spec (st : State) :
  calm st = true ->
  forall x, In x (queue (timers st)) ->
            may_trigger (act x) = false /\ is_resolve (act x) = false.
Proof.
  unfold calm. rewrite forallb_forall. intros H x Hx.
  specialize (H x Hx). apply andb_true_iff in H.
  destruct H as [H1 H2]. apply negb_true_iff in H1, H2. split; assumption.
Qed.

(** X1. The resolution on its own works as intended.  Whatever the reason, when
    [triggerEmergency] is called at [t0] while no emergency is active and
    nothing else is pending that triggers or resolves one, the emergency is
    active at every clock value before [t0 + 10000] and over from
    [t0 + 10000] on; the log gains the entry "EMERGENCY: <reason>" at once
    and the entry "Emergency resolved" once, at [t0 + 10000]. *)
Lemma emergency_resolves_after_ten_seconds
  (st : State) (r : Render) (reason : string) (t0 T : Z) :
  emergencyMode st = false -> seen_emergencyMode r = false ->
  calm st = true ->
  let st1 := triggerEmergency r reason t0 st in
  let raised := addLog_update ("EMERGENCY: " ++ reason) t0 (logs st) in
  emergencyMode st1 = true
  /\ emergencyMode (advance T st1) = (T <? t0 + 10000)
  /\ logs (advance T st1)
     = (if T <? t0 + 10000 then raised
        else addLog_update "Emergency resolved" (t0 + 10000) raised).
Proof.
  intros Hidle Hseen Hcalm st1 raised.
  set (resolved := addLog_update "Emergency resolved" (t0 + 10000) raised).
  pose (Inv := fun s : State =>
    (forall x, In x (queue (timers s)) ->
               may_trigger (act x) = false
               /\ (is_resolve (act x) = true -> due x = t0 + 10000))
    /\ ((emergencyMode s = true /\ logs s = raised
         /\ count is_resolve (queue (timers s)) = 1%nat)
        \/ (emergencyMode s = false /\ logs s = resolved
            /\ count is_resolve (queue (timers s)) = O
            /\ t0 + 10000 <= T))).
  assert (Hst1 : emergencyMode st1 = true /\ logs st1 = raised
                 /\ queue (timers st1)
                    = queue (timers st)
                      ++ [{| tid := next_id (timers st); due := t0 + 10000;
                             act := ResolveEmergency |}]).
  { unfold st1, triggerEmergency. rewrite Hseen. repeat split. }
  destruct Hst1 as [Hmode1 [Hlogs1 Hqueue1]].
  assert (Hinit : Inv st1).
  { split.
    - intros x Hx. rewrite Hqueue1 in Hx. apply in_app_iff in Hx.
      destruct Hx as [Hx|[<-|[]]].
      + destruct (calm_spec st Hcalm x Hx) as [H1 H2].
        split; [exact H1|]. rewrite H2. discriminate.
      + split; reflexivity.
    - left. split; [exact Hmode1|]. split; [exact Hlogs1|].
      rewrite Hqueue1, count_app, count_none_intro; [reflexivity|].
      intros x Hx. apply (calm_spec st Hcalm x Hx). }
  assert (Hstep : forall s tm rest,
             Inv s -> pop_due T (queue (timers s)) = Some (tm, rest) ->
             Inv (turn tm rest s)).
  { intros s tm rest [Hall Hphase] Hpop.
    apply pop_due_some in Hpop. destruct Hpop as [Hpop Hdue].
    pose proof (pop_earliest_in _ _ _ Hpop) as Hin.
    pose proof (count_pop is_resolve _ _ _ Hpop) as Hcount.
    destruct (Hall tm (proj2 (Hin tm) (or_introl eq_refl))) as [Htrig Hres].
    destruct (is_resolve (act tm)) eqn:Hkind.
    - assert (Hact : act tm = ResolveEmergency)
        by (destruct (act tm); try discriminate; reflexivity).
      destruct (turn_resolve tm rest s Hact) as [Hm [Hl [_ [Hq _]]]].
      specialize (Hres eq_refl).
      destruct Hphase as [[_ [Hlogs Hone]]|[_ [_ [Hzero _]]]]; [|lia].
      split.
      + intros x Hx. rewrite Hq in Hx. apply Hall, Hin. right. exact Hx.
      + right. rewrite Hm, Hl, Hq, Hlogs, Hres.
        repeat split; [lia|lia].
    - destruct (turn_harmless tm rest s Htrig Hkind) as [Hm [Hl [_ [Hq _]]]].
      split.
      + intros x Hx. rewrite Hq in Hx. apply Hall, Hin. right. exact Hx.
      + rewrite Hm, Hl, Hq.
        destruct Hphase as [[H1 [H2 H3]]|[H1 [H2 [H3 H4]]]];
          [left|right]; repeat split; try assumption; lia. }
  pose proof (advance_invariant Inv T Hstep st1 Hinit) as [Hall Hphase].
  pose proof (advance_complete T st1) as Hdone.
  split; [exact Hmode1|].
  destruct (Z.ltb_spec T (t0 + 10000)) as [Hlt|Hge].
  - destruct Hphase as [[H1 [H2 _]]|[_ [_ [_ H4]]]]; [|lia].
    split; assumption.
  - destruct Hphase as [[_ [_ H3]]|[H1 [H2 _]]]; [|split; assumption].
    destruct (count_some is_resolve _ (Nat.eq_le_incl _ _ (eq_sym H3)))
      as [x [Hx Hkind]].
    specialize (Hdone x Hx). destruct (Hall x Hx) as [_ Hres].
    specialize (Hres Hkind). lia.
Qed.

Example emergency_resolves_after_ten_seconds_example :
  emergencyMode
    (advance 12000 (triggerEmergency first_render "INACTIVITY" 7000 settled))
  = true
  /\ emergencyMode
       (advance 17000 (triggerEmergency first_render "INACTIVITY" 7000 settled))
     = false.
Proof.
  split.
  - exact (proj1 (proj2
      (emergency_resolves_after_ten_seconds settled first_render "INACTIVITY"
         7000 12000 eq_refl eq_refl eq_refl))).
  - exact (proj1 (proj2
      (emergency_resolves_after_ten_seconds settled first_render "INACTIVITY"
         7000 17000 eq_refl eq_refl eq_refl))).
Defined.

(** ** What does not concern the inactivity watcher *)

Lemma in_skipn {A} (k : nat) (l : list A) (x : A) : In x (skipn k l) -> In x l.
Proof.
  intros H. rewrite <- (firstn_skipn k l). apply in_or_app. right. exact H.
Qed.

Lemma in_addLog_update e message now prev :
  In e (addLog_update message now prev) -> In e prev \/ e = (now, message).
Proof.
  unfold addLog_update, slice_last.
  destruct (20 <? List.length prev)%nat; intros H; apply in_app_iff in H;
    destruct H as [H|[<-|[]]]; auto.
  left. apply (in_skipn _ _ _ H).
Qed.

Lemma apart_refl s : apart_from_inactivity s s.
Proof. repeat split; auto. Qed.

Lemma apart_trans s1 s2 s3 :
  apart_from_inactivity s1 s2 -> apart_from_inactivity s2 s3 ->
  apart_from_inactivity s1 s3.
Proof.
  intros [A1 [A2 [A3 [A4 A5]]]] [B1 [B2 [B3 [B4 B5]]]].
  repeat split; try congruence.
  - intros x Hx. destruct (B4 x Hx) as [H|H]; auto.
  - intros e He. destruct (B5 e He) as [H|H]; auto.
Qed.

Lemma apart_addLog message now s :
  inactivity_message message = false ->
  apart_from_inactivity s (addLog message now s).
Proof.
  intros Hm. repeat split; auto. simpl. intros e He.
  destruct (in_addLog_update _ _ _ _ He) as [H| ->]; auto.
Qed.

Lemma apart_schedule a delay now s :
  is_inactivity a = false -> is_trailing_activity a = false ->
  apart_from_inactivity s (snd (schedule a delay now s)).
Proof.
  intros H1 H2. repeat split; auto. simpl. intros x Hx.
  apply in_app_iff in Hx. destruct Hx as [Hx|[<-|[]]]; auto.
Qed.

Lemma apart_unschedule h s : apart_from_inactivity s (unschedule h s).
Proof.
  repeat split; auto. intros x Hx. left. destruct h as [id|]; simpl in Hx.
  - apply filter_In in Hx. apply Hx.
  - exact Hx.
Qed.

Lemma apart_triggerEmergency r reason now s :
  inactivity_message ("EMERGENCY: " ++ reason) = false ->
  apart_from_inactivity s (triggerEmergency r reason now s).
Proof.
  intros Hm. unfold triggerEmergency.
  destruct (seen_emergencyMode r); [apply apart_refl|].
  eapply apart_trans; [|apply apart_schedule; reflexivity].
  eapply apart_trans; [|apply apart_addLog; exact Hm].
  repeat split; auto.
Qed.

Lemma apart_handleNetworkEmergency r now s :
  apart_from_inactivity s (handleNetworkEmergency r now s).
Proof.
  unfold handleNetworkEmergency. repeat split; auto; simpl.
  - intros x Hx. apply in_app_iff in Hx. destruct Hx as [Hx|[<-|[]]]; auto.
    left. destruct (emergencyTimer s) as [id|]; simpl in Hx; [|exact Hx].
    apply filter_In in Hx. apply Hx.
  - intros e He. destruct (in_addLog_update _ _ _ _ He) as [H| ->]; auto.
Qed.

Lemma apart_updateNetworkStatus now s :
  apart_from_inactivity s (updateNetworkStatus now s).
Proof. rewrite updateNetworkStatus_sets_status. repeat split; auto. Qed.

Lemma apart_throttledUpdate now s :
  apart_from_inactivity s (throttledUpdate now s).
Proof.
  unfold throttledUpdate, throttled, run_now.
  destruct (lastRan (updateThrottle s)) as [ran|]; [destruct (ran =? 0)|];
    try (rewrite updateNetworkStatus_sets_status; repeat split; auto).
  repeat split; auto; simpl.
  intros x Hx. apply in_app_iff in Hx. destruct Hx as [Hx|[<-|[]]]; auto.
  left. destruct (lastFunc (updateThrottle s)) as [id|]; simpl in Hx;
    [|exact Hx].
  apply filter_In in Hx. apply Hx.
Qed.

Lemma apart_geoSuccess latitude longitude now s :
  apart_from_inactivity s (geoSuccess latitude longitude now s).
Proof.
  unfold geoSuccess. destruct (mounted s); [|apply apart_refl].
  destruct (significant (location s) latitude longitude); [|apply apart_refl].
  eapply apart_trans; [apply (apart_addLog "Location updated" now); reflexivity|].
  repeat split; auto.
Qed.

Lemma apart_geoError message now s :
  apart_from_inactivity s (geoError message now s).
Proof.
  unfold geoError. destruct (mounted s); [|apply apart_refl].
  apply apart_addLog. reflexivity.
Qed.

Lemma apart_handle ev now s :
  is_user_input ev = false -> apart_from_inactivity s (handle ev now s).
Proof.
  destruct ev as [| |c|latitude longitude|message|type]; intros Hev;
    try discriminate; cbn [handle].
  - apply apart_triggerEmergency. reflexivity.
  - eapply apart_trans with (s2 := set_connection c s); [repeat split; auto|].
    destruct (has_connection (capabilities (set_connection c s)));
      [apply apart_throttledUpdate|apply apart_refl].
  - destruct (has_geolocation (capabilities s));
      [apply apart_geoSuccess|apply apart_refl].
  - destruct (has_geolocation (capabilities s));
      [apply apart_geoError|apply apart_refl].
  - destruct (has_worker (capabilities s) && String.eqb type "HEALTH_CHECK");
      [apply apart_addLog; reflexivity|apply apart_refl].
Qed.

Lemma apart_fire a now s :
  is_inactivity a = false -> is_trailing_activity a = false ->
  apart_from_inactivity s (fire a now s).
Proof.
  destruct a as [| | | |r|]; intros H1 H2; try discriminate; cbn [fire].
  - apply apart_updateNetworkStatus.
  - unfold trailing, run_now.
    destruct (lastRan (updateThrottle s)) as [ran|];
      [destruct (5000 <=? now - ran)|];
      try rewrite updateNetworkStatus_sets_status; repeat split; auto.
  - destruct (String.eqb (seen_networkStatus r) "very-poor");
      [apply apart_triggerEmergency; reflexivity|apply apart_refl].
  - eapply apart_trans; [|apply apart_addLog; reflexivity].
    repeat split; auto.
Qed.

Lemma apart_turn tm rest s :
  pop_earliest (queue (timers s)) = Some (tm, rest) ->
  is_inactivity (act tm) = false -> is_trailing_activity (act tm) = false ->
  apart_from_inactivity s (turn tm rest s).
Proof.
  intros Hpop H1 H2. unfold turn.
  eapply apart_trans; [|apply apart_fire; assumption].
  repeat split; auto. simpl. intros x Hx. left.
  apply (pop_earliest_in _ _ _ Hpop). right. exact Hx.
Qed.

Lemma never_active_apart s s' :
  never_active s -> apart_from_inactivity s s' -> never_active s'.
Proof.
  intros [A1 [A2 [A3 [A4 A5]]]] [B1 [B2 [B3 [B4 B5]]]].
  repeat split; try congruence.
  - destruct (B4 x H) as [Hx|Hx]; [apply (A4 x Hx)|apply Hx].
  - destruct (B4 x H) as [Hx|Hx]; [apply (A4 x Hx)|apply Hx].
  - intros e He. destruct (B5 e He) as [Hx|Hx]; [apply (A5 e Hx)|apply Hx].
Qed.

Lemma never_active_mount caps conn now : never_active (mount caps conn now).
Proof.
  destruct caps as [[] [] []]; unfold mount; simpl; repeat split; intros;
    cbn in *;
    repeat match goal with
           | H : _ \/ _ |- _ => destruct H
           | H : False |- _ => destruct H
           | H : _ = _ |- _ => subst
           end; reflexivity.
Qed.

Lemma never_active_advance T s : never_active s -> never_active (advance T s).
Proof.
  apply advance_invariant. clear s. intros s tm rest Hs Hpop.
  apply pop_due_some in Hpop. destruct Hpop as [Hpop _].
  apply (never_active_apart s); [exact Hs|].
  destruct Hs as [_ [_ [_ [Hq _]]]].
  destruct (Hq tm (proj2 (pop_earliest_in _ _ _ Hpop tm) (or_introl eq_refl)))
    as [H1 H2].
  apply apart_turn; assumption.
Qed.

Lemma never_active_run history s :
  no_user_input history = true -> never_active s -> never_active (run history s).
Proof.
  revert s. induction history as [|[t ev] history IH]; intros s Hh Hs.
  - exact Hs.
  - simpl in Hh. apply andb_true_iff in Hh. destruct Hh as [Hev Hh].
    apply negb_true_iff in Hev. simpl. apply IH; [exact Hh|].
    apply (never_active_apart (advance t s)).
    + apply never_active_advance. exact Hs.
    + apply apart_handle. exact Hev.
Qed.

(** C10. Mounting arms no countdown; as long as no user-input event arrives,
    whatever else happens and however long the clock runs, no inactivity
    timer and no deferred activity call is pending, the inactive flag is not
    set, and nothing in the log comes from the inactivity watcher (neither
    "User inactive - possible emergency" nor "EMERGENCY: INACTIVITY"). *)
Theorem no_countdown_without_activity
  (caps : Capabilities) (conn : Connection) (t0 : Z)
  (history : list (Z * Event)) (T : Z) :
  no_user_input history = true ->
  let st := advance T (run history (mount caps conn t0)) in
  inactivityTimer (mount caps conn t0) = None
  /\ count is_inactivity (queue (timers (mount caps conn t0))) = O
  /\ isInactive st = false
  /\ inactivityTimer st = None
  /\ count is_inactivity (queue (timers st)) = O
  /\ count is_trailing_activity (queue (timers st)) = O
  /\ existsb (fun e => inactivity_message (snd e)) (logs st) = false.
Proof.
  intros Hh st.
  assert (Hst : never_active st).
  { apply never_active_advance, never_active_run; [exact Hh|].
    apply never_active_mount. }
  destruct (never_active_mount caps conn t0) as [_ [M2 [_ [M4 _]]]].
  destruct Hst as [A1 [A2 [_ [A4 A5]]]].
  split; [exact M2|].
  split; [apply count_none_intro; intros x Hx; apply (M4 x Hx)|].
  split; [exact A1|]. split; [exact A2|].
  split; [apply count_none_intro; intros x Hx; apply (A4 x Hx)|].
  split; [apply count_none_intro; intros x Hx; apply (A4 x Hx)|].
  destruct (existsb (fun e => inactivity_message (snd e)) (logs st)) eqn:He;
    [|reflexivity].
  apply existsb_exists in He. destruct He as [e [He Hm]].
  rewrite (A5 e He) in Hm. discriminate Hm.
Qed.

Lemma no_countdown_without_activity_witness :
  isInactive
    (advance 600000
       (run [(5000, Click); (30000, ConnectionChange sample_worst);
             (31000, Position (lat reading_a) (lng reading_a))]
          (mount all_capabilities sample_4g 1000)))
  = false.
Proof.
  exact (proj1 (proj2 (proj2
    (no_countdown_without_activity all_capabilities sample_4g 1000
       [(5000, Click); (30000, ConnectionChange sample_worst);
        (31000, Position (lat reading_a) (lng reading_a))]
       600000 eq_refl)))).
Defined.

(** ** The inactivity watcher *)


Lemma handleActivity_queue t st :
  queue (timers (handleActivity t st))
  = queue (timers (unschedule (inactivityTimer st) st))
    ++ [{| tid := next_id (timers st); due := t + 45000;
           act := InactivityTimeout |}].
Proof. unfold handleActivity. simpl. destruct (inactivityTimer st); reflexivity. Qed.




(** ** The arbiter's guard and the closures that do not see it *)

(** X2. Through the button the guard works: a press while an emergency is
    active changes nothing. *)
Lemma test_button_while_active_is_ignored (now : Z) (st : State) :
  emergencyMode st = true -> handle Click now st = st.
Proof.
  intros H. cbn [handle]. unfold simulateAccident, triggerEmergency. simpl.
  rewrite H. reflexivity.
Qed.

(** The countdown's closure calls the [triggerEmergency] of the first
    render, which saw [emergencyMode = false]: when it runs, an emergency
    is raised, logged and scheduled for resolution whatever the state. *)
Lemma inactivity_timeout_ignores_guard (now : Z) (st : State) :
  let st' := fire InactivityTimeout now st in
  emergencyMode st' = true
  /\ logs st'
     = addLog_update "EMERGENCY: INACTIVITY" now
         (addLog_update "User inactive - possible emergency" now (logs st))
  /\ count is_resolve (queue (timers st'))
     = S (count is_resolve (queue (timers st))).
Proof.
  simpl. repeat split. rewrite count_app. unfold count at 2. simpl. lia.
Qed.

(** C1, on the code. The pointer moves at 2000 and the button is pressed at
    40000: the emergency is active until 50000.  At 47000 the countdown runs
    out while it is active, and the trigger is not a no-op: "EMERGENCY:
    INACTIVITY" is logged and a second resolution is scheduled, so that
    "Emergency resolved" is logged twice, at 50000 and at 57000. *)
Theorem trigger_while_active_is_not_ignored :
  let before := advance 46999 pointer_then_button in
  let after := advance 47000 pointer_then_button in
  emergencyMode before = true
  /\ logs before = [(40000, "EMERGENCY: MANUAL_TEST")]
  /\ count is_resolve (queue (timers before)) = 1%nat
  /\ emergencyMode after = true
  /\ logs after
     = [(40000, "EMERGENCY: MANUAL_TEST");
        (47000, "User inactive - possible emergency");
        (47000, "EMERGENCY: INACTIVITY")]
  /\ count is_resolve (queue (timers after)) = 2%nat
  /\ logs (advance 60000 pointer_then_button)
     = [(40000, "EMERGENCY: MANUAL_TEST");
        (47000, "User inactive - possible emergency");
        (47000, "EMERGENCY: INACTIVITY");
        (50000, "Emergency resolved");
        (57000, "Emergency resolved")].
Proof. vm_compute. repeat split. Qed.

(** C3, on the code. The pointer moves at 2000, the button is pressed at
    40000 and the countdown runs out at 47000, as above; the button is
    pressed again at 52000, when no emergency is active any more.  The
    emergency this raises should last until 62000, but the resolution that
    the trigger at 47000 left behind runs at 57000 and ends it after five
    seconds; the press's own resolution at 62000 then logs "Emergency
    resolved" for an emergency that is over already. *)
Theorem left_over_resolution_ends_next_emergency_early :
  emergencyMode before_second_press = false
  /\ emergencyMode second_press = true
  /\ emergencyMode (advance 56999 second_press) = true
  /\ emergencyMode (advance 57000 second_press) = false
  /\ emergencyMode (advance 61999 second_press) = false
  /\ logs (advance 62000 second_press)
     = [(40000, "EMERGENCY: MANUAL_TEST");
        (47000, "User inactive - possible emergency");
        (47000, "EMERGENCY: INACTIVITY");
        (50000, "Emergency resolved");
        (52000, "EMERGENCY: MANUAL_TEST");
        (57000, "Emergency resolved");
        (62000, "Emergency resolved")].
Proof. vm_compute. repeat split. Qed.

(** ** Escalation of a bad network *)

(** X3. [handleNetworkEmergency] keeps a single escalation pending: the one it
    sets replaces the one its ref holds. *)
Lemma escalation_timer_is_single (r : Render) (now : Z) (st : State) :
  (forall x, In x (queue (timers st)) ->
             is_escalation (act x) = true -> emergencyTimer st = Some (tid x)) ->
  let st' := handleNetworkEmergency r now st in
  count is_escalation (queue (timers st')) = 1%nat
  /\ (forall x, In x (queue (timers st')) ->
                is_escalation (act x) = true ->
                emergencyTimer st' = Some (tid x) /\ due x = now + 30000).
Proof.
  intros Htracked. unfold handleNetworkEmergency. simpl.
  assert (Hnone : forall x,
             In x (queue (clearTimeout (emergencyTimer st) (timers st))) ->
             is_escalation (act x) = false).
  { intros x Hx. destruct (is_escalation (act x)) eqn:Hk; [|reflexivity].
    destruct (emergencyTimer st) as [id|] eqn:Href; simpl in Hx.
    - apply filter_In in Hx. destruct Hx as [Hx Hid].
      specialize (Htracked x Hx Hk). injection Htracked as ->.
      rewrite Nat.eqb_refl in Hid. discriminate Hid.
    - specialize (Htracked x Hx Hk). discriminate Htracked. }
  split.
  - rewrite count_app, (count_none_intro _ _ Hnone). reflexivity.
  - intros x Hx Hk. apply in_app_iff in Hx. destruct Hx as [Hx|[<-|[]]].
    + rewrite (Hnone x Hx) in Hk. discriminate Hk.
    + simpl. split; [|reflexivity].
      destruct (emergencyTimer st); reflexivity.
Qed.

(** The escalation that [updateNetworkStatus] would set is the one of the
    first render, which saw the status "checking...": when it runs it
    triggers nothing, whatever the status has become. *)
Lemma escalation_of_first_render_does_nothing (now : Z) (st : State) :
  fire (EscalationTimeout first_render) now st = st.
Proof. reflexivity. Qed.


(** ** The throttle helper *)

(** C6, as the claim states it, fails after the first quiet period.  With
    an interval of 1000, "a" is called at 1000 and runs at once.  The call
    "b" at 6000 is the first after 5000 quiet milliseconds, yet it does not
    run the callback: it only sets a timer, due at once.  When the call "c"
    follows before that timer has had its turn, the timer is replaced, and
    "b" never runs. *)
Lemma first_call_after_quiet_period_is_deferred :
  let h1 := settle record_run 1000 6000
              (call record_run 1000 "a" 1000 (new_host [])) in
  let h2 := call record_run 1000 "b" 6000 h1 in
  let h3 := call record_run 1000 "c" 6000 h2 in
  user h1 = [(1000, "a")]
  /\ user h2 = [(1000, "a")]
  /\ queue (table h2) = [{| tid := 0%nat; due := 6000; act := "b" |}]
  /\ queue (table h3) = [{| tid := 1%nat; due := 6000; act := "c" |}]
  /\ user (settle record_run 1000 60000 h3) = [(1000, "a"); (6000, "c")].
Proof. vm_compute. repeat split. Qed.

Section ThrottleFacts.

Context {U A : Type}.
Variable func : A -> Z -> U -> U.
Variable limit : Z.

Lemma settle_nothing_due (T : Z) (h : Host U A) :
  (forall x, In x (queue (table h)) -> T < due x) ->
  settle func limit T h = h.
Proof.
  intros H. unfold settle.
  destruct (List.length (queue (table h))); simpl; [reflexivity|].
  rewrite (pop_due_not_due T _ H). reflexivity.
Qed.

Lemma host_turn_queue (tm : Timer A) (rest : list (Timer A)) (h : Host U A) :
  queue (table (host_turn func limit tm rest h)) = rest.
Proof.
  unfold host_turn, trailing, run_now. cbn [closure].
  destruct (lastRan (closure h)) as [r|];
    [destruct (limit <=? due tm - r)|]; reflexivity.
Qed.

(** The fuel of [settle] is enough: no timer that is due is left. *)
Lemma settle_complete (T : Z) (h : Host U A) :
  forall x, In x (queue (table (settle func limit T h))) -> T < due x.
Proof.
  apply pop_due_none. unfold settle.
  remember (List.length (queue (table h))) as fuel eqn:Hfuel.
  assert (Hle : (List.length (queue (table h)) <= fuel)%nat) by lia.
  clear Hfuel. revert h Hle. induction fuel as [|fuel IH]; intros h Hle.
  - simpl. destruct (queue (table h)); [reflexivity|simpl in Hle; lia].
  - simpl. destruct (pop_due T (queue (table h))) as [[tm rest]|] eqn:Hpop;
      [|exact Hpop].
    apply IH. rewrite host_turn_queue.
    apply pop_due_some in Hpop. destruct Hpop as [Hpop _].
    pose proof (pop_earliest_sum (fun _ => 1%nat) _ _ _ Hpop) as Hsum.
    assert (Hlen : forall q : list (Timer A),
               list_sum (map (fun _ => 1%nat) q) = List.length q)
      by (induction q; simpl; auto).
    rewrite !Hlen in Hsum. lia.
Qed.

Lemma in_window_settle t1 u1 p h T :
  T < t1 + limit -> in_window limit t1 u1 p h -> settle func limit T h = h.
Proof.
  intros HT Hw. apply settle_nothing_due. intros x Hx.
  destruct Hw as [h _ _ Hq|h id args _ _ Hq _]; rewrite Hq in Hx.
  - destruct Hx.
  - destruct Hx as [<-|[]]. simpl. lia.
Qed.

Lemma in_window_call t1 u1 p h args t :
  t1 <> 0 -> t1 <= t < t1 + limit -> in_window limit t1 u1 p h ->
  in_window limit t1 u1 (Some args) (call func limit args t h).
Proof.
  intros Hnz Ht Hw.
  assert (Hdue : t + Z.max 0 (limit - (t - t1)) = t1 + limit) by lia.
  apply Z.eqb_neq in Hnz.
  destruct Hw as [h Hran Hu Hq|h id args0 Hran Hu Hq Hlast];
    unfold call, throttled; rewrite Hran, Hnz;
    unfold host_cancel, host_defer, setTimeout, with_closure; simpl.
  - apply (window_pending limit t1 u1 _ (next_id (clearTimeout (lastFunc (closure h)) (table h))));
      simpl; auto.
    rewrite Hdue. replace (queue (clearTimeout (lastFunc (closure h)) (table h)))
      with (@nil (Timer A)); [reflexivity|].
    destruct (lastFunc (closure h)); simpl; rewrite Hq; reflexivity.
  - rewrite Hlast. simpl. rewrite Hq. simpl. rewrite Nat.eqb_refl. simpl.
    apply (window_pending limit t1 u1 _ (next_id (table h))); simpl; auto.
    rewrite Hdue. reflexivity.
Qed.

Lemma in_window_calls t1 u1 later :
  t1 <> 0 ->
  (forall e, In e later -> t1 <= fst e < t1 + limit) ->
  forall p h, in_window limit t1 u1 p h ->
    in_window limit t1 u1
      (match rev later with [] => p | e :: _ => Some (snd e) end)
      (calls func limit later h).
Proof.
  intros Hnz. induction later as [|[t args] later IH]; intros Hin p h Hw.
  - exact Hw.
  - assert (Ht : t1 <= t < t1 + limit)
      by (apply (Hin (t, args)); left; reflexivity).
    cbn [calls]. rewrite (in_window_settle t1 u1 p h t (proj2 Ht) Hw).
    pose proof (in_window_call t1 u1 p h args t Hnz Ht Hw) as Hw'.
    specialize (IH (fun e He => Hin e (or_intror He)) _ _ Hw').
    cbn [rev]. destruct (rev later) as [|e l]; exact IH.
Qed.

Lemma in_window_close t1 u1 p h T :
  t1 + limit <= T -> in_window limit t1 u1 p h ->
  user (settle func limit T h)
  = match p with
    | None => u1
    | Some args => func args (t1 + limit) u1
    end
  /\ queue (table (settle func limit T h)) = [].
Proof.
  intros HT Hw. destruct Hw as [h Hran Hu Hq|h id args Hran Hu Hq Hlast];
    unfold settle; rewrite Hq; cbn [List.length settle_fuel]; try rewrite Hq.
  - auto.
  - unfold pop_due. cbn [pop_earliest due].
    destruct (Z.leb_spec (t1 + limit) T); [|lia].
    unfold host_turn, trailing. cbn [closure act due]. rewrite Hran.
    replace (t1 + limit - t1) with limit by lia. rewrite Z.leb_refl.
    simpl. rewrite Hu. auto.
Qed.

(** C6, amended. For every callback and interval: the first call ever
    runs the callback at once; every later call, also the first after a
    quiet period, leaves the callback's state alone and replaces the
    pending timer by its own; and for calls that start with the first call
    ever, at a clock value [t1] other than 0, and all fall before
    [t1 + limit], the callback has run exactly once when the calls are
    over, with the first arguments at [t1], nothing more happens before
    [t1 + limit], and from [t1 + limit] on it has run once more if there
    was a second call, at [t1 + limit] and with the arguments of the last
    call, after which no timer is pending. *)
Theorem throttle_contract (u : U) (a1 : A) (t1 : Z) :
  call func limit a1 t1 (new_host u)
  = {| user := func a1 t1 u; table := no_timers;
       closure := {| lastFunc := None; lastRan := Some t1 |} |}
  /\ (forall h args t r,
        lastRan (closure h) = Some r -> r <> 0 ->
        user (call func limit args t h) = user h
        /\ queue (table (call func limit args t h))
           = queue (clearTimeout (lastFunc (closure h)) (table h))
             ++ [{| tid := next_id (table h);
                    due := t + Z.max 0 (limit - (t - r)); act := args |}]
        /\ lastFunc (closure (call func limit args t h))
           = Some (next_id (table h)))
  /\ (forall later T,
        t1 <> 0 ->
        (forall e, In e later -> t1 <= fst e < t1 + limit) ->
        let h := calls func limit later (call func limit a1 t1 (new_host u)) in
        user h = func a1 t1 u
        /\ (T < t1 + limit -> user (settle func limit T h) = func a1 t1 u)
        /\ (t1 + limit <= T ->
            user (settle func limit T h)
            = match rev later with
              | [] => func a1 t1 u
              | e :: _ => func (snd e) (t1 + limit) (func a1 t1 u)
              end
            /\ queue (table (settle func limit T h)) = [])).
Proof.
  split; [reflexivity|]. split.
  - intros h args t r Hran Hnz. apply Z.eqb_neq in Hnz.
    unfold call, throttled. rewrite Hran, Hnz.
    destruct (lastFunc (closure h)); repeat split.
  - intros later T Hnz Hin h.
    assert (Hw0 : in_window limit t1 (func a1 t1 u) None
                    (call func limit a1 t1 (new_host u)))
      by (apply window_fresh; reflexivity).
    pose proof (in_window_calls t1 _ later Hnz Hin _ _ Hw0) as Hw.
    fold h in Hw.
    split; [|split].
    + destruct Hw; assumption.
    + intros HT. rewrite (in_window_settle _ _ _ h T HT Hw).
      destruct Hw; assumption.
    + intros HT. destruct (in_window_close _ _ _ h T HT Hw) as [Hu Hq].
      split; [|exact Hq]. rewrite Hu.
      destruct (rev later); reflexivity.
Qed.

End ThrottleFacts.

Lemma throttle_contract_witness :
  user (settle record_run 1000 2500
          (calls record_run 1000 [(1200, "b"); (1900, "c")]
             (call record_run 1000 "a" 1000 (new_host []))))
  = [(1000, "a"); (2000, "c")]
  /\ user (call record_run 1000 "b" 6000
             (call record_run 1000 "a" 1000 (new_host [])))
     = [(1000, "a")].
Proof.
  pose proof (throttle_contract record_run 1000 [] "a" 1000) as [_ [Hlater Hwin]].
  split.
  - refine (proj1 (proj2 (proj2
      (Hwin [(1200, "b"); (1900, "c")] 2500 _ _)) _)).
    + discriminate.
    + intros e [<-|[<-|[]]]; simpl; lia.
    + lia.
  - refine (proj1 (Hlater (call record_run 1000 "a" 1000 (new_host []))
                     "b" 6000 1000 _ _)).
    + reflexivity.
    + discriminate.
Defined.

(* ================================================================== *)
(** * Further properties of the code *)

(** ** The location watcher *)

(** X4. A reading that repeats the one before it is never stored or logged a
    second time, whatever the clock values and whatever the reading (also
    one that is not a finite number). *)
Theorem repeated_reading_changes_nothing
  (latitude longitude : Num.number) (t1 t2 : Z) (st : State) :
  geoSuccess latitude longitude t2 (geoSuccess latitude longitude t1 st)
  = geoSuccess latitude longitude t1 st.
Proof.
  unfold geoSuccess at 2.
  destruct (mounted st) eqn:Hm; simpl.
  - destruct (significant (location st) latitude longitude) eqn:Hs.
    + unfold geoSuccess. cbn [mounted set_location location addLog setLogs].
      rewrite Hm, Hs. cbn [negb significant lat lng].
      rewrite !not_exceeds_self. reflexivity.
    + unfold geoSuccess. rewrite Hm, Hs. reflexivity.
  - unfold geoSuccess. rewrite Hm. reflexivity.
Qed.

(** ** The network watcher at startup *)

(** X5. With the Network Information API the status is "checking..." until two
    seconds after mounting and the classification of the connection from
    then on; without it the status is "API not supported" at once and for
    good, as long as nothing else happens. *)
Theorem first_classification_after_warm_up
  (caps : Capabilities) (conn : Connection) (t0 T : Z) :
  networkStatus (advance T (mount caps conn t0))
  = if has_connection caps
    then (if T <? t0 + 2000 then "checking..." else classify conn)
    else "API not supported".
Proof.
  destruct caps as [geo [|] worker]; destruct geo, worker;
    unfold advance, mount; cbn -[Z.add Z.leb Z.ltb classify];
    try reflexivity;
    unfold pop_due; cbn -[Z.add Z.leb Z.ltb classify];
    destruct (Z.leb_spec (t0 + 2000) T), (Z.ltb_spec T (t0 + 2000));
    try lia; try reflexivity;
    unfold turn; cbn [act fire]; rewrite updateNetworkStatus_sets_status;
    reflexivity.
Qed.

(** ** The arbiter *)

Lemma test_button_while_active_is_ignored_witness :
  handle Click 8000 after_test = after_test.
Proof. apply test_button_while_active_is_ignored. reflexivity. Defined.

Lemma escalation_timer_is_single_witness :
  count is_escalation
    (queue (timers (handleNetworkEmergency first_render 9000
                      (handleNetworkEmergency first_render 8000 settled))))
  = 1%nat.
Proof.
  refine (proj1 (escalation_timer_is_single first_render 9000
                   (handleNetworkEmergency first_render 8000 settled) _)).
  intros x [<-|[]] _. reflexivity.
Defined.

(** ** The throttle helper: rate and last call *)

Section ThrottleRuns.

Context {A : Type}.
Variable limit : Z.

Lemma spaced_snoc (times : list Z) (r t : Z) :
  spaced limit (times ++ [r]) = true -> r + limit <= t ->
  spaced limit ((times ++ [r]) ++ [t]) = true.
Proof.
  intros Hs Ht. induction times as [|a times IH].
  - simpl. apply andb_true_iff. split; [apply Z.leb_le; exact Ht|reflexivity].
  - destruct times as [|b times].
    + simpl in *. apply andb_true_iff in Hs. destruct Hs as [Hab _].
      rewrite Hab. simpl. apply andb_true_iff.
      split; [apply Z.leb_le; exact Ht|reflexivity].
    + change (spaced limit (a :: (b :: times) ++ [r]) = true) in Hs.
      cbn [app spaced] in Hs. apply andb_true_iff in Hs.
      destruct Hs as [Hab Hs].
      change (spaced limit (a :: b :: ((times ++ [r]) ++ [t])) = true).
      cbn [spaced]. rewrite Hab. simpl. apply IH. exact Hs.
Qed.

Lemma last_cons {B : Type} (x d : B) (l : list B) : last (x :: l) d = last l x.
Proof.
  revert x d. induction l as [|y l IH]; intros x d; [reflexivity|].
  change (last (x :: y :: l) d) with (last (y :: l) d).
  rewrite (IH y d), (IH y x). reflexivity.
Qed.

Lemma steady_first (a1 : A) (t1 : Z) :
  0 < t1 -> steady limit t1 a1 (call note_run limit a1 t1 (new_host [])).
Proof.
  intros Ht. exists t1, [], a1. cbn. repeat split; try lia. left. split; reflexivity.
Qed.

Lemma steady_settle (now t : Z) (latest : A) (h : Host (list (Z * A)) A) :
  now <= t -> steady limit now latest h ->
  steady limit t latest (settle note_run limit t h).
Proof.
  intros Hle (r & runs & a & Hu & Hran & Hr & Hsp & Hq).
  destruct Hq as [[Hq Ha]|(id & d & Hq & Hlast & Hd1 & Hd2)].
  - unfold settle. rewrite Hq. simpl.
    exists r, runs, a. repeat split; try assumption; try lia. left. auto.
  - unfold settle. rewrite Hq. cbn [List.length settle_fuel]. rewrite Hq.
    unfold pop_due. cbn [pop_earliest due].
    destruct (Z.leb_spec d t) as [Hdue|Hdue].
    + unfold host_turn, trailing. cbn [closure act due]. rewrite Hran.
      destruct (Z.leb_spec limit (d - r)) as [_|Hbad]; [|lia].
      unfold run_now, host_func, with_closure, note_run. cbn.
      exists d, (user h), latest. rewrite Hu. repeat split; try lia.
      * cbn [user]. rewrite Hu in Hsp. rewrite !map_app in *.
        cbn [map fst] in *. apply spaced_snoc; assumption.
      * left. auto.
    + exists r, runs, a. repeat split; try assumption; try lia.
      right. exists id, d. repeat split; try assumption; lia.
Qed.

Lemma steady_settle_done (now t : Z) (latest : A) (dflt : Z * A)
  (h : Host (list (Z * A)) A) :
  now + Z.max 0 limit <= t -> steady limit now latest h ->
  queue (table (settle note_run limit t h)) = []
  /\ snd (last (user (settle note_run limit t h)) dflt) = latest.
Proof.
  intros Hle (r & runs & a & Hu & Hran & Hr & Hsp & Hq).
  destruct Hq as [[Hq Ha]|(id & d & Hq & Hlast & Hd1 & Hd2)].
  - unfold settle. rewrite Hq. simpl. split; [exact Hq|].
    rewrite Hu, last_last. exact Ha.
  - unfold settle. rewrite Hq. cbn [List.length settle_fuel]. rewrite Hq.
    unfold pop_due. cbn [pop_earliest due].
    destruct (Z.leb_spec d t) as [Hdue|Hdue]; [|lia].
    unfold host_turn, trailing. cbn [closure act due]. rewrite Hran.
    destruct (Z.leb_spec limit (d - r)) as [_|Hbad]; [|lia].
    unfold run_now, host_func, with_closure, note_run. cbn.
    split; [reflexivity|]. rewrite last_last. reflexivity.
Qed.

Lemma steady_call (t : Z) (latest args : A) (h : Host (list (Z * A)) A) :
  steady limit t latest h -> steady limit t args (call note_run limit args t h).
Proof.
  intros (r & runs & a & Hu & Hran & Hr & Hsp & Hq).
  assert (Hnz : (r =? 0) = false) by (apply Z.eqb_neq; lia).
  assert (Hempty : queue (clearTimeout (lastFunc (closure h)) (table h)) = []).
  { destruct Hq as [[Hq _]|(id & d & Hq & Hlast & _)].
    - destruct (lastFunc (closure h)); simpl; rewrite Hq; reflexivity.
    - rewrite Hlast. simpl. rewrite Hq. simpl. rewrite Nat.eqb_refl. reflexivity. }
  unfold call, throttled. rewrite Hran, Hnz.
  unfold host_cancel, host_defer, setTimeout, with_closure. cbn.
  rewrite Hempty. cbn.
  exists r, runs, a. repeat split; try assumption; try lia.
  right. eexists. eexists. repeat split; try reflexivity; lia.
Qed.

Lemma steady_calls (later : list (Z * A)) :
  forall (now : Z) (latest : A) (h : Host (list (Z * A)) A),
    ascending now later = true -> steady limit now latest h ->
    steady limit (fst (final_call now latest later))
      (snd (final_call now latest later)) (calls note_run limit later h).
Proof.
  induction later as [|[t args] later IH]; intros now latest h Hasc Hst.
  - exact Hst.
  - cbn [ascending fst] in Hasc. apply andb_true_iff in Hasc.
    destruct Hasc as [Hle Hasc]. apply Z.leb_le in Hle.
    unfold final_call. rewrite last_cons. cbn [calls].
    apply (IH t args); [exact Hasc|].
    apply steady_call with (latest := latest).
    apply steady_settle with (now := now); assumption.
Qed.

(** X6. Whatever calls are made, in the order of the clock and starting at a
    clock value above 0, the callback never runs twice within the interval:
    its runs are at least [limit] apart. *)
Theorem throttled_runs_are_spaced
  (a1 : A) (t1 : Z) (later : list (Z * A)) (T : Z) :
  0 < t1 -> ascending t1 later = true ->
  fst (final_call t1 a1 later) <= T ->
  spaced limit
    (map fst
       (user (settle note_run limit T
                (calls note_run limit later
                   (call note_run limit a1 t1 (new_host []))))))
  = true.
Proof.
  intros Ht Hasc HT.
  pose proof (steady_calls later t1 a1 _ Hasc (steady_first a1 t1 Ht)) as Hst.
  apply (steady_settle _ T _ _ HT) in Hst.
  destruct Hst as (r & runs & a & _ & _ & _ & Hsp & _). exact Hsp.
Qed.

(** X7. The last call is never lost: once the clock is [max(0, limit)] past the
    last call, nothing is pending and the latest run of the callback had the
    arguments of the last call. *)
Theorem throttle_keeps_last_call
  (a1 : A) (t1 : Z) (later : list (Z * A)) (T : Z) :
  0 < t1 -> ascending t1 later = true ->
  fst (final_call t1 a1 later) + Z.max 0 limit <= T ->
  let h := settle note_run limit T
             (calls note_run limit later
                (call note_run limit a1 t1 (new_host []))) in
  queue (table h) = []
  /\ snd (last (user h) (0, a1)) = snd (final_call t1 a1 later).
Proof.
  intros Ht Hasc HT h.
  pose proof (steady_calls later t1 a1 _ Hasc (steady_first a1 t1 Ht)) as Hst.
  apply (steady_settle_done _ T _ (0, a1) _ HT Hst).
Qed.

End ThrottleRuns.

(** ** The changes that handlers and timers are made of *)


Lemma set_updateThrottle_same s : set_updateThrottle (updateThrottle s) s = s.
Proof. destruct s; reflexivity. Qed.

Lemma set_activityThrottle_same s :
  set_activityThrottle (activityThrottle s) s = s.
Proof. destruct s; reflexivity. Qed.

Lemma triggerEmergency_changes r reason now s :
  escalation_message ("EMERGENCY: " ++ reason) = false ->
  changes s (triggerEmergency r reason now s).
Proof.
  intros Hm. unfold triggerEmergency.
  destruct (seen_emergencyMode r); [apply changes_none|].
  apply changes_raise. exact Hm.
Qed.

Lemma handle_changes ev now s : changes s (handle ev now s).
Proof.
  destruct ev as [| |c|latitude longitude|message|type]; cbn [handle].
  - apply triggerEmergency_changes. reflexivity.
  - unfold throttledHandler, throttled, run_now.
    destruct (lastRan (activityThrottle s)) as [r|]; [destruct (r =? 0)|].
    + eapply changes_then; [apply (changes_rearm now)|].
      exact (changes_ran_activity now (handleActivity now s)).
    + exact (changes_defer_activity (1000 - (now - r)) now s).
    + eapply changes_then; [apply (changes_rearm now)|].
      exact (changes_ran_activity now (handleActivity now s)).
  - eapply changes_then; [apply (changes_connection c)|].
    destruct (has_connection (capabilities (set_connection c s))) eqn:Hcap;
      [|apply changes_none].
    unfold throttledUpdate, throttled, run_now.
    destruct (lastRan (updateThrottle (set_connection c s))) as [r|];
      [destruct (r =? 0)|].
    + rewrite updateNetworkStatus_sets_status.
      eapply changes_then; [apply changes_classify; exact Hcap|].
      exact (changes_ran_update now _).
    + exact (changes_defer_update (5000 - (now - r)) now _ Hcap).
    + rewrite updateNetworkStatus_sets_status.
      eapply changes_then; [apply changes_classify; exact Hcap|].
      exact (changes_ran_update now _).
  - destruct (has_geolocation (capabilities s)); [|apply changes_none].
    unfold geoSuccess. destruct (mounted s); [|apply changes_none]. simpl.
    destruct (significant (location s) latitude longitude);
      [|apply changes_none].
    eapply changes_then; [apply (changes_log "Location updated" now); reflexivity|].
    apply changes_location.
  - destruct (has_geolocation (capabilities s)); [|apply changes_none].
    unfold geoError. destruct (mounted s); [|apply changes_none]. simpl.
    apply changes_log. reflexivity.
  - destruct (has_worker (capabilities s) && String.eqb type "HEALTH_CHECK");
      [|apply changes_none].
    apply changes_log. reflexivity.
Qed.

(** ** Counting and tracking pending timers *)

Lemma count_in kind (q : list (Timer Action)) x :
  In x q -> kind (act x) = true -> (1 <= count kind q)%nat.
Proof.
  intros Hx Hk. destruct (count kind q) eqn:Hc; [|lia].
  rewrite (count_none kind q Hc x Hx) in Hk. discriminate Hk.
Qed.

Lemma count_filter_le kind (f : Timer Action -> bool) (q : list (Timer Action)) :
  (count kind (filter f q) <= count kind q)%nat.
Proof.
  unfold count. induction q as [|x q IH]; simpl; [lia|].
  destruct (f x); simpl; lia.
Qed.

Lemma count_clearTimeout_le kind (h : option nat) (t : TimerTable Action) :
  (count kind (queue (clearTimeout h t)) <= count kind (queue t))%nat.
Proof. destruct h; simpl; [apply count_filter_le|lia]. Qed.

Lemma in_clearTimeout (h : option nat) (t : TimerTable Action) x :
  In x (queue (clearTimeout h t)) ->
  In x (queue t) /\ h <> Some (tid x).
Proof.
  destruct h as [id|]; simpl; intros Hx.
  - apply filter_In in Hx. destruct Hx as [Hx Hid]. split; [exact Hx|].
    intros Heq. injection Heq as ->. rewrite Nat.eqb_refl in Hid.
    discriminate Hid.
  - split; [exact Hx|discriminate].
Qed.

Lemma count_single kind (x : Timer Action) :
  count kind [x] = if kind (act x) then 1%nat else O.
Proof. unfold count. simpl. destruct (kind (act x)); reflexivity. Qed.

(** Clearing the handle of a tracked kind removes every timer of the kind;
    the timer set next is then the only one, and it is tracked by its own
    handle. *)
Lemma rearm_tracked kind (t : TimerTable Action) (ref : option nat)
  (new : Timer Action) :
  tracked kind ref (queue t) -> kind (act new) = true ->
  tracked kind (Some (tid new)) (queue (clearTimeout ref t) ++ [new])
  /\ count kind (queue (clearTimeout ref t) ++ [new]) = 1%nat.
Proof.
  intros Ht Hk.
  assert (Hnone : forall x, In x (queue (clearTimeout ref t)) ->
                            kind (act x) = false).
  { intros x Hx. apply in_clearTimeout in Hx. destruct Hx as [Hx Hne].
    destruct (kind (act x)) eqn:Hkx; [|reflexivity].
    destruct (Hne (Ht x Hx Hkx)). }
  split.
  - intros x Hx Hkx. apply in_app_iff in Hx. destruct Hx as [Hx|[<-|[]]].
    + rewrite (Hnone x Hx) in Hkx. discriminate Hkx.
    + reflexivity.
  - rewrite count_app, (count_none_intro _ _ Hnone), count_single, Hk.
    reflexivity.
Qed.

(** For the other kinds, clearing a handle and setting a timer leaves the
    tracking and does not raise the count. *)
Lemma rearm_other kind (t : TimerTable Action) (h ref : option nat)
  (new : Timer Action) :
  tracked kind ref (queue t) -> kind (act new) = false ->
  tracked kind ref (queue (clearTimeout h t) ++ [new])
  /\ (count kind (queue (clearTimeout h t) ++ [new]) <= count kind (queue t))%nat.
Proof.
  intros Ht Hk. split.
  - intros x Hx Hkx. apply in_app_iff in Hx. destruct Hx as [Hx|[<-|[]]].
    + apply in_clearTimeout in Hx. apply (Ht x (proj1 Hx) Hkx).
    + rewrite Hk in Hkx. discriminate Hkx.
  - rewrite count_app, count_single, Hk.
    pose proof (count_clearTimeout_le kind h t). lia.
Qed.

Lemma existsb_addLog_update (p : LogEntry -> bool) message now prev :
  existsb p prev = false -> p (now, message) = false ->
  existsb p (addLog_update message now prev) = false.
Proof.
  intros Hprev Hnew.
  destruct (existsb p (addLog_update message now prev)) eqn:He; [|reflexivity].
  apply existsb_exists in He. destruct He as [e [He Hp]].
  destruct (in_addLog_update _ _ _ _ He) as [Hin| ->].
  - assert (existsb p prev = true) by (apply existsb_exists; eauto).
    congruence.
  - congruence.
Qed.

Lemma known_status_classify (c : Connection) : known_status (classify c) = true.
Proof.
  unfold classify. destruct (poor_condition c) eqn:Hp; [reflexivity|].
  destruct (very_poor_condition c) eqn:Hv; [|reflexivity].
  rewrite (very_poor_is_poor c Hv) in Hp. discriminate Hp.
Qed.

(** ** Handlers and timers are made of the listed changes *)

Lemma turn_changes tm rest s :
  orderly s -> pop_earliest (queue (timers s)) = Some (tm, rest) ->
  changes s (turn tm rest s).
Proof.
  intros Hord Hpop.
  destruct Hord as (_ & _ & _ & _ & _ & _ & _ & Hesc & _ & _ & Hcap & _).
  assert (Htm : In tm (queue (timers s)))
    by (apply (pop_earliest_in _ _ _ Hpop); left; reflexivity).
  assert (Hconn : is_initial_check (act tm) = true
                  \/ is_trailing_update (act tm) = true ->
                  has_connection (capabilities (with_queue rest s)) = true).
  { intros Hk. change (has_connection (capabilities s) = true).
    destruct (has_connection (capabilities s)); [reflexivity|].
    destruct (Hcap eq_refl) as (_ & H1 & H2).
    destruct Hk as [Hk|Hk].
    - pose proof (count_in _ _ _ Htm Hk). lia.
    - pose proof (count_in _ _ _ Htm Hk). lia. }
  unfold turn. fold (with_queue rest s).
  destruct (act tm) as [| | | |r|] eqn:Hact; cbn [fire].
  - eapply changes_then; [apply (changes_drop tm rest); [exact Hpop|rewrite Hact; reflexivity]|].
    rewrite updateNetworkStatus_sets_status. apply changes_classify.
    apply Hconn. left. reflexivity.
  - eapply changes_then; [apply (changes_drop tm rest); [exact Hpop|rewrite Hact; reflexivity]|].
    unfold trailing, run_now.
    destruct (lastRan (updateThrottle (with_queue rest s))) as [ran|];
      [destruct (5000 <=? due tm - ran)|].
    + rewrite updateNetworkStatus_sets_status.
      eapply changes_then; [apply changes_classify; apply Hconn; right; reflexivity|].
      exact (changes_ran_update (due tm) _).
    + rewrite set_updateThrottle_same. apply changes_none.
    + rewrite set_updateThrottle_same. apply changes_none.
  - eapply changes_then; [apply (changes_drop tm rest); [exact Hpop|rewrite Hact; reflexivity]|].
    unfold trailing, run_now.
    destruct (lastRan (activityThrottle (with_queue rest s))) as [ran|];
      [destruct (1000 <=? due tm - ran)|].
    + eapply changes_then; [apply (changes_rearm (due tm))|].
      exact (changes_ran_activity (due tm) (handleActivity (due tm) _)).
    + rewrite set_activityThrottle_same. apply changes_none.
    + rewrite set_activityThrottle_same. apply changes_none.
  - eapply changes_then; [apply (changes_drop tm rest); [exact Hpop|rewrite Hact; reflexivity]|].
    eapply changes_then; [apply (changes_inactive true)|].
    eapply changes_then;
      [apply (changes_log "User inactive - possible emergency" (due tm));
       reflexivity|].
    apply triggerEmergency_changes. reflexivity.
  - assert (Hk : is_escalation (act tm) = true) by (rewrite Hact; reflexivity).
    pose proof (count_in _ _ _ Htm Hk). lia.
  - exact (changes_resolve tm rest s Hpop Hact).
Qed.

(** ** The listed changes keep timers and network watcher in order *)

Lemma count_rearm_le kind (h : option nat) (t : TimerTable Action)
  (new : Timer Action) :
  kind (act new) = false ->
  (count kind (queue (clearTimeout h t) ++ [new]) <= count kind (queue t))%nat.
Proof.
  intros Hk. rewrite count_app, count_single, Hk.
  pose proof (count_clearTimeout_le kind h t). lia.
Qed.

Lemma orderly_frame s s' :
  orderly s ->
  inactivityTimer s' = inactivityTimer s ->
  lastFunc (activityThrottle s') = lastFunc (activityThrottle s) ->
  lastFunc (updateThrottle s') = lastFunc (updateThrottle s) ->
  emergencyTimer s' = emergencyTimer s ->
  capabilities s' = capabilities s ->
  (networkStatus s' = networkStatus s
   \/ (known_status (networkStatus s') = true
       /\ has_connection (capabilities s) = true)) ->
  (forall x, In x (queue (timers s')) ->
             In x (queue (timers s)) \/ act x = ResolveEmergency) ->
  (forall kind, kind ResolveEmergency = false ->
                (count kind (queue (timers s')) <= count kind (queue (timers s)))%nat) ->
  (logs s' = logs s
   \/ exists message now,
        logs s' = addLog_update message now (logs s)
        /\ escalation_message message = false) ->
  orderly s'.
Proof.
  intros (T1 & T2 & T3 & C1 & C2 & C3 & C4 & E1 & E2 & K & U & M & L)
         R1 R2 R3 R4 Hcap Hstatus Hin Hcount Hlogs.
  assert (Htracked : forall kind ref,
             kind ResolveEmergency = false ->
             tracked kind ref (queue (timers s)) ->
             tracked kind ref (queue (timers s'))).
  { intros kind ref Hk Ht x Hx Hkx. destruct (Hin x Hx) as [Hold|Hres].
    - apply (Ht x Hold Hkx).
    - rewrite Hres, Hk in Hkx. discriminate Hkx. }
  unfold orderly. cbv zeta. rewrite R1, R2, R3, R4, Hcap.
  pose proof (Hcount is_inactivity eq_refl).
  pose proof (Hcount is_trailing_activity eq_refl).
  pose proof (Hcount is_trailing_update eq_refl).
  pose proof (Hcount is_initial_check eq_refl).
  pose proof (Hcount is_escalation eq_refl).
  repeat match goal with |- _ /\ _ => split end;
    try (apply Htracked; [reflexivity|assumption]); try lia; try assumption.
  - destruct Hstatus as [-> |[Hk _]]; assumption.
  - intros Hno. destruct (U Hno) as (U1 & U2 & U3).
    destruct Hstatus as [-> |[_ Hyes]]; [|congruence].
    repeat split; [assumption|lia|lia].
  - destruct Hlogs as [-> |(message & now & -> & Hm)]; [assumption|].
    apply existsb_addLog_update; assumption.
  - destruct Hlogs as [-> |(message & now & -> & Hm)]; [assumption|].
    apply addLog_update_length. assumption.
Qed.

Lemma orderly_swap s s' (h : option nat) (new : Timer Action) :
  orderly s ->
  queue (timers s') = queue (clearTimeout h (timers s)) ++ [new] ->
  (act new = InactivityTimeout /\ h = inactivityTimer s
   /\ inactivityTimer s' = Some (tid new)
   /\ lastFunc (activityThrottle s') = lastFunc (activityThrottle s)
   /\ lastFunc (updateThrottle s') = lastFunc (updateThrottle s))
  \/ (act new = TrailingActivity /\ h = lastFunc (activityThrottle s)
      /\ lastFunc (activityThrottle s') = Some (tid new)
      /\ inactivityTimer s' = inactivityTimer s
      /\ lastFunc (updateThrottle s') = lastFunc (updateThrottle s))
  \/ (act new = TrailingUpdate /\ h = lastFunc (updateThrottle s)
      /\ lastFunc (updateThrottle s') = Some (tid new)
      /\ inactivityTimer s' = inactivityTimer s
      /\ lastFunc (activityThrottle s') = lastFunc (activityThrottle s)
      /\ has_connection (capabilities s) = true) ->
  emergencyTimer s' = emergencyTimer s ->
  networkStatus s' = networkStatus s ->
  capabilities s' = capabilities s ->
  logs s' = logs s ->
  orderly s'.
Proof.
  intros (T1 & T2 & T3 & C1 & C2 & C3 & C4 & E1 & E2 & K & U & M & L)
         Hq Hkind R4 R5 R6 R7.
  unfold orderly. cbv zeta. rewrite Hq, R4, R5, R6, R7.
  destruct Hkind as [(Hact & -> & -> & -> & ->)
                    |[(Hact & -> & -> & -> & ->)
                     |(Hact & -> & -> & -> & -> & Hyes)]].
  - destruct (rearm_tracked is_inactivity (timers s) _ new T1)
      as [A1 A2]; [rewrite Hact; reflexivity|].
    destruct (rearm_other is_trailing_activity (timers s) (inactivityTimer s)
                _ new T2) as [B1 B2]; [rewrite Hact; reflexivity|].
    destruct (rearm_other is_trailing_update (timers s) (inactivityTimer s)
                _ new T3) as [D1 D2]; [rewrite Hact; reflexivity|].
    pose proof (count_rearm_le is_initial_check (inactivityTimer s) (timers s)
                  new) as F1.
    pose proof (count_rearm_le is_escalation (inactivityTimer s) (timers s)
                  new) as F2.
    rewrite Hact in F1, F2. specialize (F1 eq_refl). specialize (F2 eq_refl).
    repeat match goal with |- _ /\ _ => split end; try assumption; try lia.
    intros Hno. destruct (U Hno) as (U1 & U2 & U3).
    repeat split; [assumption|lia|lia].
  - destruct (rearm_tracked is_trailing_activity (timers s) _ new T2)
      as [A1 A2]; [rewrite Hact; reflexivity|].
    destruct (rearm_other is_inactivity (timers s)
                (lastFunc (activityThrottle s)) _ new T1) as [B1 B2];
      [rewrite Hact; reflexivity|].
    destruct (rearm_other is_trailing_update (timers s)
                (lastFunc (activityThrottle s)) _ new T3) as [D1 D2];
      [rewrite Hact; reflexivity|].
    pose proof (count_rearm_le is_initial_check
                  (lastFunc (activityThrottle s)) (timers s) new) as F1.
    pose proof (count_rearm_le is_escalation
                  (lastFunc (activityThrottle s)) (timers s) new) as F2.
    rewrite Hact in F1, F2. specialize (F1 eq_refl). specialize (F2 eq_refl).
    repeat match goal with |- _ /\ _ => split end; try assumption; try lia.
    intros Hno. destruct (U Hno) as (U1 & U2 & U3).
    repeat split; [assumption|lia|lia].
  - destruct (rearm_tracked is_trailing_update (timers s) _ new T3)
      as [A1 A2]; [rewrite Hact; reflexivity|].
    destruct (rearm_other is_inactivity (timers s)
                (lastFunc (updateThrottle s)) _ new T1) as [B1 B2];
      [rewrite Hact; reflexivity|].
    destruct (rearm_other is_trailing_activity (timers s)
                (lastFunc (updateThrottle s)) _ new T2) as [D1 D2];
      [rewrite Hact; reflexivity|].
    pose proof (count_rearm_le is_initial_check
                  (lastFunc (updateThrottle s)) (timers s) new) as F1.
    pose proof (count_rearm_le is_escalation
                  (lastFunc (updateThrottle s)) (timers s) new) as F2.
    rewrite Hact in F1, F2. specialize (F1 eq_refl). specialize (F2 eq_refl).
    repeat match goal with |- _ /\ _ => split end; try assumption; try lia.
    intros Hno. congruence.
Qed.

Lemma count_pop_le kind (q rest : list (Timer Action)) tm :
  pop_earliest q = Some (tm, rest) -> (count kind rest <= count kind q)%nat.
Proof. intros H. rewrite (count_pop kind _ _ _ H). lia. Qed.

Lemma orderly_changes s s' : changes s s' -> orderly s -> orderly s'.
Proof.
  induction 1 as [s|s1 s2 s3 _ IH1 _ IH2|v s|c s|v s|message now s Hm
                 |reason now s Hm|now s|now s|now s|delay now s
                 |delay now s Hcap|s Hcap|tm rest s Hpop Hkind
                 |tm rest s Hpop Hact];
    intros Hord.
  - exact Hord.
  - apply IH2, IH1, Hord.
  - apply (orderly_frame s); auto.
  - apply (orderly_frame s); auto.
  - apply (orderly_frame s); auto.
  - apply (orderly_frame s); auto. right. exists message, now. auto.
  - apply (orderly_frame s); auto.
    + cbn. intros x Hx. apply in_app_iff in Hx.
      destruct Hx as [Hx|[<-|[]]]; auto.
    + cbn -[count]. intros kind Hk. rewrite count_app, count_single. cbn [act].
      rewrite Hk. lia.
    + right. exists ("EMERGENCY: " ++ reason)%string, now. auto.
  - apply (orderly_swap s _ (inactivityTimer s)
             {| tid := next_id (timers s); due := now + 45000;
                act := InactivityTimeout |}); auto.
    + apply handleActivity_queue.
    + left. repeat split.
      unfold handleActivity. cbn. destruct (inactivityTimer s); reflexivity.
  - apply (orderly_frame s); auto.
  - apply (orderly_frame s); auto.
  - apply (orderly_swap s _ (lastFunc (activityThrottle s))
             {| tid := next_id (timers s); due := now + Z.max 0 delay;
                act := TrailingActivity |}); auto.
    + subst deferred. cbn. destruct (lastFunc (activityThrottle s)); reflexivity.
    + right; left. repeat split.
      subst deferred. cbn. destruct (lastFunc (activityThrottle s)); reflexivity.
  - apply (orderly_swap s _ (lastFunc (updateThrottle s))
             {| tid := next_id (timers s); due := now + Z.max 0 delay;
                act := TrailingUpdate |}); auto.
    + subst deferred. cbn. destruct (lastFunc (updateThrottle s)); reflexivity.
    + right; right. repeat split; auto.
      subst deferred. cbn. destruct (lastFunc (updateThrottle s)); reflexivity.
  - apply (orderly_frame s); auto. right. split; [|exact Hcap].
    apply known_status_classify.
  - apply (orderly_frame s); auto.
    + cbn. intros x Hx. left. apply (pop_earliest_in _ _ _ Hpop). auto.
    + cbn -[count]. intros kind _. apply (count_pop_le _ _ _ _ Hpop).
  - apply (orderly_frame s); auto.
    + cbn. intros x Hx. left. apply (pop_earliest_in _ _ _ Hpop). auto.
    + cbn -[count]. intros kind _. apply (count_pop_le _ _ _ _ Hpop).
    + right. exists "Emergency resolved", (due tm). auto.
Qed.

Lemma orderly_mount caps conn now : orderly (mount caps conn now).
Proof.
  destruct caps as [[] [] []]; unfold mount, orderly, tracked; cbn;
    repeat split; intros;
    repeat match goal with
           | H : _ \/ _ |- _ => destruct H
           | H : False |- _ => destruct H
           | H : _ = _ |- _ => subst; try discriminate
           end; try reflexivity; try lia.
Qed.

Lemma orderly_advance T s : orderly s -> orderly (advance T s).
Proof.
  apply advance_invariant. clear s. intros s tm rest Hs Hpop.
  apply pop_due_some in Hpop. destruct Hpop as [Hpop _].
  apply (orderly_changes s); [|exact Hs]. apply turn_changes; assumption.
Qed.

Lemma orderly_run history s : orderly s -> orderly (run history s).
Proof.
  revert s. induction history as [|[t ev] history IH]; intros s Hs;
    [exact Hs|].
  cbn [run]. apply IH. apply (orderly_changes (advance t s)).
  - apply handle_changes.
  - apply orderly_advance. exact Hs.
Qed.

(** What the listed changes keep, from a state in order onwards, holds
    after every history and at every clock value. *)
Lemma advance_changes_invariant (P : State -> Prop) :
  (forall s s', changes s s' -> orderly s -> P s -> P s') ->
  forall T s, orderly s -> P s -> P (advance T s).
Proof.
  intros Hstep T s Hs Hp.
  apply (advance_invariant (fun s => orderly s /\ P s) T); [|auto].
  clear s Hs Hp. intros s tm rest [Hs Hp] Hpop.
  apply pop_due_some in Hpop. destruct Hpop as [Hpop _].
  pose proof (turn_changes tm rest s Hs Hpop) as Hch.
  split; [apply (orderly_changes s); assumption|].
  apply (Hstep s); assumption.
Qed.

Lemma run_changes_invariant (P : State -> Prop) :
  (forall s s', changes s s' -> orderly s -> P s -> P s') ->
  forall history s, orderly s -> P s -> P (run history s).
Proof.
  intros Hstep. induction history as [|[t ev] history IH]; intros s Hs Hp.
  - exact Hp.
  - cbn [run]. apply IH.
    + apply (orderly_changes (advance t s)); [apply handle_changes|].
      apply orderly_advance. exact Hs.
    + apply (Hstep (advance t s)); [apply handle_changes| |].
      * apply orderly_advance. exact Hs.
      * apply advance_changes_invariant; assumption.
Qed.

Lemma reachable_invariant (P : State -> Prop) :
  (forall s s', changes s s' -> orderly s -> P s -> P s') ->
  forall s, orderly s -> P s ->
  forall history T, P (advance T (run history s)).
Proof.
  intros Hstep s Hs Hp history T.
  apply advance_changes_invariant; [exact Hstep| |].
  - apply orderly_run. exact Hs.
  - apply run_changes_invariant; assumption.
Qed.

Lemma changes_capabilities s s' : changes s s' -> capabilities s' = capabilities s.
Proof.
  induction 1; try reflexivity; try congruence.
Qed.

(** ** Handles are accounted for *)

Lemma count_clearTimeout_same kind (h : option nat) (t : TimerTable Action) :
  (forall x, In x (queue t) -> kind (act x) = true -> h <> Some (tid x)) ->
  count kind (queue (clearTimeout h t)) = count kind (queue t).
Proof.
  destruct h as [id|]; [|reflexivity]. simpl. intros H. unfold count.
  induction (queue t) as [|x q IH]; [reflexivity|]. simpl.
  assert (IH' : list_sum (map (fun tm => if kind (act tm) then 1%nat else 0%nat)
                  (filter (fun tm => negb (Nat.eqb (tid tm) id)) q))
                = list_sum (map (fun tm => if kind (act tm) then 1%nat else 0%nat) q))
    by (apply IH; intros y Hy; apply H; right; exact Hy).
  destruct (Nat.eqb_spec (tid x) id) as [Heq|Hne]; simpl.
  - destruct (kind (act x)) eqn:Hk; [|lia].
    destruct (H x (or_introl eq_refl) Hk). rewrite Heq. reflexivity.
  - lia.
Qed.

Lemma accounted_frame s s' :
  accounted s ->
  inactivityTimer s' = inactivityTimer s ->
  lastFunc (activityThrottle s') = lastFunc (activityThrottle s) ->
  lastFunc (updateThrottle s') = lastFunc (updateThrottle s) ->
  capabilities s' = capabilities s ->
  next_id (timers s') = next_id (timers s) ->
  (forall x, In x (queue (timers s')) -> In x (queue (timers s))) ->
  (emergencyMode s' = true ->
   emergencyMode s = true
   /\ (count is_resolve (queue (timers s))
       <= count is_resolve (queue (timers s')))%nat) ->
  accounted s'.
Proof.
  intros (A1 & A2 & A3 & A4 & A5 & A6 & A7) R1 R2 R3 Rc Rn Hin Hmode.
  unfold accounted. cbv zeta. rewrite R1, R2, R3, Rc, Rn.
  repeat match goal with |- _ /\ _ => split end; try assumption.
  - intros x Hx. apply A1, Hin, Hx.
  - intros x Hx. apply A5, Hin, Hx.
  - intros Hyes. destruct (A6 Hyes) as [Hn Hinit]. split; [exact Hn|].
    intros x Hx. apply Hinit, Hin, Hx.
  - intros Hm. destruct (Hmode Hm) as [Hold Hle]. specialize (A7 Hold). lia.
Qed.

(** Raising an emergency, re-arming the countdown, deferring a call: a
    handle is cleared, a timer that is not an initial check is set with the
    next handle, and the kept handle of its kind, if there is one, becomes
    the new one. *)
Lemma accounted_swap s s' (h : option nat) (new : Timer Action) :
  accounted s ->
  h = None \/ h = inactivityTimer s \/ h = lastFunc (activityThrottle s)
  \/ h = lastFunc (updateThrottle s) ->
  queue (timers s') = queue (clearTimeout h (timers s)) ++ [new] ->
  tid new = next_id (timers s) ->
  is_initial_check (act new) = false ->
  next_id (timers s') = S (next_id (timers s)) ->
  capabilities s' = capabilities s ->
  (inactivityTimer s' = inactivityTimer s
   \/ (inactivityTimer s' = Some (tid new)
       /\ is_inactivity (act new) = true)) ->
  (lastFunc (activityThrottle s') = lastFunc (activityThrottle s)
   \/ (lastFunc (activityThrottle s') = Some (tid new)
       /\ is_trailing_activity (act new) = true)) ->
  (lastFunc (updateThrottle s') = lastFunc (updateThrottle s)
   \/ (lastFunc (updateThrottle s') = Some (tid new)
       /\ is_trailing_update (act new) = true)) ->
  (emergencyMode s' = true ->
   emergencyMode s = true \/ is_resolve (act new) = true) ->
  accounted s'.
Proof.
  intros (A1 & A2 & A3 & A4 & A5 & A6 & A7)
         Hh Hq Hid Hni Hnext Rc R1 R2 R3 Hmode.
  assert (Hold : forall x, In x (queue (clearTimeout h (timers s))) ->
                           In x (queue (timers s)))
    by (intros x Hx; apply (in_clearTimeout _ _ _ Hx)).
  assert (Hkeep : count is_resolve (queue (clearTimeout h (timers s)))
                  = count is_resolve (queue (timers s))).
  { apply count_clearTimeout_same. intros x Hx Hk Heq.
    destruct (A5 x Hx) as (N1 & N2 & N3).
    destruct Hh as [-> |[-> |[-> | ->]]]; [discriminate| | |].
    - specialize (N1 Heq). destruct (act x); discriminate.
    - specialize (N2 Heq). destruct (act x); discriminate.
    - specialize (N3 Heq). destruct (act x); discriminate. }
  assert (Hown : forall (kind : Action -> bool) ref ref',
             below ref (next_id (timers s)) ->
             ref' = ref \/ (ref' = Some (tid new) /\ kind (act new) = true) ->
             below ref' (S (next_id (timers s)))
             /\ (forall x, In x (queue (clearTimeout h (timers s)) ++ [new]) ->
                   (In x (queue (timers s)) ->
                    ref = Some (tid x) -> kind (act x) = true) ->
                   ref' = Some (tid x) -> kind (act x) = true)).
  { intros kind ref ref' Hb [-> |[-> Hk]].
    - split.
      + intros id Hr. specialize (Hb id Hr). lia.
      + intros x Hx Hwas Heq. apply in_app_iff in Hx.
        destruct Hx as [Hx|[<-|[]]]; [apply Hwas; auto|].
        specialize (Hb _ Heq). lia.
    - split.
      + intros id Hr. injection Hr as <-. lia.
      + intros x Hx _ Heq. injection Heq as Heq.
        apply in_app_iff in Hx. destruct Hx as [Hx|[<-|[]]]; [|exact Hk].
        specialize (A1 x (Hold x Hx)). lia. }
  destruct (Hown is_inactivity _ _ A2 R1) as (B1 & B2).
  destruct (Hown is_trailing_activity _ _ A3 R2) as (C1 & C2).
  destruct (Hown is_trailing_update _ _ A4 R3) as (D1 & D2).
  unfold accounted. cbv zeta. rewrite Hq, Hnext, Rc.
  repeat match goal with |- _ /\ _ => split end; try assumption.
  - intros x Hx. apply in_app_iff in Hx. destruct Hx as [Hx|[<-|[]]].
    + specialize (A1 x (Hold x Hx)). lia.
    + lia.
  - intros x Hx. repeat split.
    + apply B2; [exact Hx|]. intros Hin. apply (A5 x Hin).
    + apply C2; [exact Hx|]. intros Hin. apply (A5 x Hin).
    + apply D2; [exact Hx|]. intros Hin. apply (A5 x Hin).
  - intros Hyes. destruct (A6 Hyes) as [Hn Hinit]. split; [lia|].
    intros x Hx. apply in_app_iff in Hx. destruct Hx as [Hx|[<-|[]]].
    + apply Hinit, Hold, Hx.
    + rewrite Hni, Hid. unfold initTimer. split; [lia|discriminate].
  - intros Hm. rewrite count_app, Hkeep, count_single.
    destruct (Hmode Hm) as [Hwas| ->]; [specialize (A7 Hwas)|]; lia.
Qed.

Lemma accounted_changes s s' : changes s s' -> accounted s -> accounted s'.
Proof.
  induction 1 as [s|s1 s2 s3 _ IH1 _ IH2|v s|c s|v s|message now s Hm
                 |reason now s Hm|now s|now s|now s|delay now s
                 |delay now s Hcap|s Hcap|tm rest s Hpop Hkind
                 |tm rest s Hpop Hact];
    intros Hacc.
  - exact Hacc.
  - apply IH2, IH1, Hacc.
  - apply (accounted_frame s); auto.
  - apply (accounted_frame s); auto.
  - apply (accounted_frame s); auto.
  - apply (accounted_frame s); auto.
  - apply (accounted_swap s _ None
             {| tid := next_id (timers s); due := now + 10000;
                act := ResolveEmergency |}); auto.
  - apply (accounted_swap s _ (inactivityTimer s)
             {| tid := next_id (timers s); due := now + 45000;
                act := InactivityTimeout |}); auto.
    + apply handleActivity_queue.
    + unfold handleActivity. cbn. destruct (inactivityTimer s); reflexivity.
    + right. split; [|reflexivity].
      unfold handleActivity. cbn. destruct (inactivityTimer s); reflexivity.
  - apply (accounted_frame s); auto.
  - apply (accounted_frame s); auto.
  - apply (accounted_swap s _ (lastFunc (activityThrottle s))
             {| tid := next_id (timers s); due := now + Z.max 0 delay;
                act := TrailingActivity |}); auto.
    + subst deferred. cbn. destruct (lastFunc (activityThrottle s)); reflexivity.
    + subst deferred. cbn. destruct (lastFunc (activityThrottle s)); reflexivity.
    + right. split; [|reflexivity].
      subst deferred. cbn. destruct (lastFunc (activityThrottle s)); reflexivity.
  - apply (accounted_swap s _ (lastFunc (updateThrottle s))
             {| tid := next_id (timers s); due := now + Z.max 0 delay;
                act := TrailingUpdate |}); auto.
    + subst deferred. cbn. destruct (lastFunc (updateThrottle s)); reflexivity.
    + subst deferred. cbn. destruct (lastFunc (updateThrottle s)); reflexivity.
    + right. split; [|reflexivity].
      subst deferred. cbn. destruct (lastFunc (updateThrottle s)); reflexivity.
  - apply (accounted_frame s); auto.
  - apply (accounted_frame s); auto.
    + cbn. intros x Hx. apply (pop_earliest_in _ _ _ Hpop). auto.
    + cbn -[count]. intros Hm. split; [exact Hm|].
      rewrite (count_pop is_resolve _ _ _ Hpop), Hkind. lia.
  - apply (accounted_frame s); auto.
    + cbn. intros x Hx. apply (pop_earliest_in _ _ _ Hpop). auto.
    + cbn. discriminate.
Qed.

Lemma accounted_mount caps conn now : accounted (mount caps conn now).
Proof.
  destruct caps as [[] [] []]; unfold mount, accounted, below; cbn;
    repeat split; intros;
    repeat match goal with
           | H : _ \/ _ |- _ => destruct H
           | H : False |- _ => destruct H
           | H : _ = _ |- _ => subst; try discriminate
           end; cbn; try lia; try reflexivity.
Qed.

Lemma accounted_reachable caps conn t0 history T :
  accounted (advance T (run history (mount caps conn t0))).
Proof.
  apply (reachable_invariant accounted).
  - intros s s' Hch _. apply accounted_changes. exact Hch.
  - apply orderly_mount.
  - apply accounted_mount.
Qed.

Lemma orderly_reachable caps conn t0 history T :
  orderly (advance T (run history (mount caps conn t0))).
Proof. apply orderly_advance, orderly_run, orderly_mount. Qed.

Lemma capabilities_reachable caps conn t0 history T :
  capabilities (advance T (run history (mount caps conn t0))) = caps.
Proof.
  apply (reachable_invariant (fun s => capabilities s = caps)).
  - intros s s' Hch _ <-. apply changes_capabilities. exact Hch.
  - apply orderly_mount.
  - destruct caps as [[] [] []]; reflexivity.
Qed.

(** X8. However many events arrive and however they are timed, at most one
    inactivity countdown, one deferred activity call, one deferred network
    update and one initial network check are pending. *)
Theorem pending_timers_never_pile_up
  (caps : Capabilities) (conn : Connection) (t0 : Z)
  (history : list (Z * Event)) (T : Z) :
  let q := queue (timers (advance T (run history (mount caps conn t0)))) in
  (count is_inactivity q <= 1)%nat
  /\ (count is_trailing_activity q <= 1)%nat
  /\ (count is_trailing_update q <= 1)%nat
  /\ (count is_initial_check q <= 1)%nat.
Proof.
  destruct (orderly_reachable caps conn t0 history T)
    as (_ & _ & _ & C1 & C2 & C3 & C4 & _).
  repeat split; assumption.
Qed.

(** X9. In no history is the status ever "very-poor": it is one of
    "checking...", "API not supported", "good" and "poor".  No escalation
    timer is ever pending, the ref [emergencyTimer] stays empty, and neither
    "Poor network detected - monitoring" nor "EMERGENCY: NETWORK_FAILURE" is
    ever in the log. *)
Theorem escalation_never_happens
  (caps : Capabilities) (conn : Connection) (t0 : Z)
  (history : list (Z * Event)) (T : Z) :
  let st := advance T (run history (mount caps conn t0)) in
  known_status (networkStatus st) = true
  /\ networkStatus st <> "very-poor"
  /\ count is_escalation (queue (timers st)) = O
  /\ emergencyTimer st = None
  /\ existsb (fun e => escalation_message (snd e)) (logs st) = false.
Proof.
  destruct (orderly_reachable caps conn t0 history T)
    as (_ & _ & _ & _ & _ & _ & _ & E1 & E2 & K & _ & M & _).
  repeat split; try assumption.
  intros Heq. rewrite Heq in K. discriminate K.
Qed.

(** X10. Without the Network Information API the status is "API not supported"
    after every history, and no timer of the network watcher is ever
    pending: connection changes are not listened to. *)
Theorem unsupported_network_stays_unsupported
  (caps : Capabilities) (conn : Connection) (t0 : Z)
  (history : list (Z * Event)) (T : Z) :
  has_connection caps = false ->
  let st := advance T (run history (mount caps conn t0)) in
  networkStatus st = "API not supported"
  /\ count is_initial_check (queue (timers st)) = O
  /\ count is_trailing_update (queue (timers st)) = O.
Proof.
  intros Hno st.
  destruct (orderly_reachable caps conn t0 history T)
    as (_ & _ & _ & _ & _ & _ & _ & _ & _ & _ & U & _).
  apply U. unfold st. rewrite capabilities_reachable. exact Hno.
Qed.

(** X11. Whatever happens, the log of the component never holds more than 21
    entries: every writer goes through [addLog]. *)
Theorem log_never_exceeds_its_bound
  (caps : Capabilities) (conn : Connection) (t0 : Z)
  (history : list (Z * Event)) (T : Z) :
  (List.length (logs (advance T (run history (mount caps conn t0)))) <= 21)%nat.
Proof.
  destruct (orderly_reachable caps conn t0 history T)
    as (_ & _ & _ & _ & _ & _ & _ & _ & _ & _ & _ & _ & L).
  exact L.
Qed.

(** X12. In every history, while an emergency is active a resolution is pending:
    no emergency is left without the timer that ends it. *)
Theorem active_emergency_has_resolution_pending
  (caps : Capabilities) (conn : Connection) (t0 : Z)
  (history : list (Z * Event)) (T : Z) :
  let st := advance T (run history (mount caps conn t0)) in
  emergencyMode st = true -> (1 <= count is_resolve (queue (timers st)))%nat.
Proof.
  intros st. destruct (accounted_reachable caps conn t0 history T)
    as (_ & _ & _ & _ & _ & _ & A7).
  exact A7.
Qed.

(** ** Left alone, the component comes to rest *)

Lemma turn_trailing_activity tm rest s :
  act tm = TrailingActivity ->
  forall x, In x (queue (timers (turn tm rest s))) ->
    In x rest
    \/ x = {| tid := next_id (timers s); due := due tm + 45000;
              act := InactivityTimeout |}.
Proof.
  intros Hact x. unfold turn. rewrite Hact. cbn [fire].
  unfold trailing, run_now. cbn [activityThrottle set_timers].
  destruct (lastRan (activityThrottle s)) as [ran|];
    [destruct (1000 <=? due tm - ran)|]; cbn [set_activityThrottle timers];
    try (cbn; auto; fail).
  rewrite handleActivity_queue. intros Hx. apply in_app_iff in Hx.
  destruct Hx as [Hx|[<-|[]]]; [|right; reflexivity].
  left. apply in_clearTimeout in Hx. apply Hx.
Qed.

(** X13. Once every pending timer has had the time to run with its descendants
    (55 seconds at most after the last deferred activity call, 10 seconds
    after the end of a countdown), and no event arrives in between, no timer
    is pending and no emergency is active. *)
Theorem component_comes_to_rest
  (caps : Capabilities) (conn : Connection) (t0 : Z)
  (history : list (Z * Event)) (T : Z) :
  let st := run history (mount caps conn t0) in
  at_rest_by T st = true ->
  queue (timers (advance T st)) = [] /\ emergencyMode (advance T st) = false.
Proof.
  intros st Hrest.
  pose (Bounded := fun s : State =>
    forall x, In x (queue (timers s)) -> due x + slack (act x) <= T).
  assert (Hst : orderly st /\ accounted st /\ Bounded st).
  { split; [apply orderly_run, orderly_mount|]. split.
    - apply (run_changes_invariant accounted).
      + intros s s' Hch _. apply accounted_changes. exact Hch.
      + apply orderly_mount.
      + apply accounted_mount.
    - intros x Hx. unfold at_rest_by in Hrest.
      rewrite forallb_forall in Hrest. apply Z.leb_le. apply (Hrest x Hx). }
  assert (Hend : orderly (advance T st) /\ accounted (advance T st)
                 /\ Bounded (advance T st)).
  { apply (advance_invariant
             (fun s => orderly s /\ accounted s /\ Bounded s) T); [|exact Hst].
    intros s tm rest (Hord & Hacc & Hb) Hpop.
    apply pop_due_some in Hpop. destruct Hpop as [Hpop Hdue].
    pose proof (turn_changes tm rest s Hord Hpop) as Hch.
    split; [apply (orderly_changes s); assumption|].
    split; [apply (accounted_changes s); assumption|].
    pose proof (pop_earliest_in _ _ _ Hpop) as Hin.
    assert (Htm : due tm + slack (act tm) <= T)
      by (apply Hb, Hin; left; reflexivity).
    assert (Hrestb : forall x, In x rest -> due x + slack (act x) <= T)
      by (intros x Hx; apply Hb, Hin; right; exact Hx).
    destruct (act tm) as [| | | |r|] eqn:Hact.
    - destruct (turn_harmless tm rest s) as (_ & _ & _ & Hq & _);
        try (rewrite Hact; reflexivity).
      intros x Hx. rewrite Hq in Hx. auto.
    - destruct (turn_harmless tm rest s) as (_ & _ & _ & Hq & _);
        try (rewrite Hact; reflexivity).
      intros x Hx. rewrite Hq in Hx. auto.
    - intros x Hx.
      destruct (turn_trailing_activity tm rest s Hact x Hx) as [Hold| ->];
        [auto|]. cbn [due act slack] in *. lia.
    - destruct (turn_inactivity tm rest s Hact) as (_ & _ & _ & Hq & _).
      intros x Hx. rewrite Hq in Hx. apply in_app_iff in Hx.
      destruct Hx as [Hx|[<-|[]]]; [auto|]. cbn [due act slack] in *. lia.
    - destruct Hord as (_ & _ & _ & _ & _ & _ & _ & Hesc & _).
      assert (Hk : is_escalation (act tm) = true) by (rewrite Hact; reflexivity).
      pose proof (count_in _ _ _ (proj2 (Hin tm) (or_introl eq_refl)) Hk). lia.
    - destruct (turn_resolve tm rest s Hact) as (_ & _ & _ & Hq & _).
      intros x Hx. rewrite Hq in Hx. auto. }
  destruct Hend as (_ & Hacc & Hb).
  pose proof (advance_complete T st) as Hdone.
  assert (Hempty : queue (timers (advance T st)) = []).
  { destruct (queue (timers (advance T st))) as [|x q] eqn:Hq;
      [reflexivity|].
    specialize (Hdone x (or_introl eq_refl)).
    specialize (Hb x). rewrite Hq in Hb. specialize (Hb (or_introl eq_refl)).
    assert (0 <= slack (act x)) by (destruct (act x); cbn; lia). lia. }
  split; [exact Hempty|].
  destruct Hacc as (_ & _ & _ & _ & _ & _ & A7).
  destruct (emergencyMode (advance T st)); [|reflexivity].
  specialize (A7 eq_refl). rewrite Hempty in A7. cbn in A7. lia.
Qed.

(** ** Unmounting *)

Lemma count_clearTimeout_tracked kind (ref : option nat)
  (t : TimerTable Action) :
  tracked kind ref (queue t) -> count kind (queue (clearTimeout ref t)) = O.
Proof.
  intros Ht. apply count_none_intro. intros x Hx.
  apply in_clearTimeout in Hx. destruct Hx as [Hx Hne].
  destruct (kind (act x)) eqn:Hk; [|reflexivity].
  destruct (Hne (Ht x Hx Hk)).
Qed.

Lemma cleanup_queue (st : State) :
  queue (timers (cleanup st))
  = queue (clearTimeout (inactivityTimer st)
             (clearTimeout
                (if has_connection (capabilities st)
                 then Some initTimer else None) (timers st))).
Proof.
  unfold cleanup.
  destruct (has_geolocation (capabilities st)); cbn [capabilities set_mounted];
    destruct (has_connection (capabilities st)); reflexivity.
Qed.

(** X14. After every history, unmounting leaves no countdown and no initial
    check pending, and a position reading or error that still arrives
    changes nothing. *)
Theorem cleanup_cancels_countdown_and_initial_check
  (caps : Capabilities) (conn : Connection) (t0 : Z)
  (history : list (Z * Event)) (T : Z) :
  let st := cleanup (advance T (run history (mount caps conn t0))) in
  count is_inactivity (queue (timers st)) = O
  /\ count is_initial_check (queue (timers st)) = O
  /\ (forall latitude longitude now,
        handle (Position latitude longitude) now st = st)
  /\ (forall message now, handle (PositionError message) now st = st).
Proof.
  set (s := advance T (run history (mount caps conn t0))). intros st.
  pose proof (orderly_reachable caps conn t0 history T) as Hord.
  pose proof (accounted_reachable caps conn t0 history T) as Hacc.
  fold s in Hord, Hacc.
  destruct Hord as (T1 & _ & _ & _ & _ & _ & _ & _ & _ & _ & U & _).
  destruct Hacc as (_ & _ & _ & _ & _ & A6 & _).
  assert (Hgeo : has_geolocation (capabilities st) = true -> mounted st = false).
  { unfold st, cleanup. destruct (has_geolocation (capabilities s)) eqn:Hg.
    - cbn [capabilities set_mounted].
      destruct (has_connection (capabilities s)); reflexivity.
    - destruct (has_connection (capabilities s)); cbn; congruence. }
  split; [|split; [|split]].
  - unfold st. rewrite cleanup_queue. apply count_clearTimeout_tracked.
    intros x Hx. apply in_clearTimeout in Hx. apply T1, Hx.
  - unfold st. rewrite cleanup_queue.
    pose proof (count_clearTimeout_le is_initial_check (inactivityTimer s)
                  (clearTimeout
                     (if has_connection (capabilities s)
                      then Some initTimer else None) (timers s))) as Hle.
    destruct (has_connection (capabilities s)) eqn:Hc; rewrite ?Hc in Hle.
    + destruct (A6 eq_refl) as [_ Hinit].
      assert (Hzero : count is_initial_check
                        (queue (clearTimeout (Some initTimer) (timers s))) = O).
      { apply count_clearTimeout_tracked.
        intros x Hx Hk. f_equal. symmetry. apply (Hinit x Hx). exact Hk. }
      lia.
    + destruct (U eq_refl) as (_ & U2 & _). cbn [clearTimeout] in Hle |- *. lia.
  - intros latitude longitude now. cbn [handle].
    destruct (has_geolocation (capabilities st)) eqn:Hg; [|reflexivity].
    unfold geoSuccess. rewrite (Hgeo eq_refl). reflexivity.
  - intros message now. cbn [handle].
    destruct (has_geolocation (capabilities st)) eqn:Hg; [|reflexivity].
    unfold geoError. rewrite (Hgeo eq_refl). reflexivity.
Qed.

(** X15. Unmounting cancels nothing else: a deferred activity call, a deferred
    network update and a resolution that are pending stay pending, and so
    run after the component is gone. *)
Theorem cleanup_leaves_other_timers_pending
  (caps : Capabilities) (conn : Connection) (t0 : Z)
  (history : list (Z * Event)) (T : Z) :
  let st := advance T (run history (mount caps conn t0)) in
  count is_trailing_activity (queue (timers (cleanup st)))
  = count is_trailing_activity (queue (timers st))
  /\ count is_trailing_update (queue (timers (cleanup st)))
     = count is_trailing_update (queue (timers st))
  /\ count is_resolve (queue (timers (cleanup st)))
     = count is_resolve (queue (timers st)).
Proof.
  intros st.
  pose proof (accounted_reachable caps conn t0 history T) as Hacc.
  fold st in Hacc. destruct Hacc as (_ & _ & _ & _ & A5 & A6 & _).
  assert (Hkeep : forall kind,
             (forall a, kind a = true ->
                        is_inactivity a = false /\ is_initial_check a = false) ->
             count kind (queue (timers (cleanup st)))
             = count kind (queue (timers st))).
  { intros kind Hk. rewrite cleanup_queue.
    rewrite count_clearTimeout_same.
    - apply count_clearTimeout_same. intros x Hx Hkx Heq.
      destruct (has_connection (capabilities st)) eqn:Hc; [|discriminate].
      injection Heq as Heq. destruct (A6 eq_refl) as [_ Hinit].
      destruct (Hk _ Hkx) as [_ Hni].
      rewrite (proj1 (Hinit x Hx) (eq_sym Heq)) in Hni. discriminate Hni.
    - intros x Hx Hkx Heq. apply in_clearTimeout in Hx.
      destruct (A5 x (proj1 Hx)) as (N1 & _).
      destruct (Hk _ Hkx) as [Hn _]. rewrite (N1 Heq) in Hn. discriminate Hn. }
  repeat split; apply Hkeep; intros a Ha; destruct a; try discriminate;
    split; reflexivity.
Qed.

(** ** Instances *)

Lemma throttled_runs_are_spaced_witness :
  spaced 1000
    (map fst
       (user (settle note_run 1000 9000
                (calls note_run 1000 later_calls
                   (call note_run 1000 "a" 1000 (new_host []))))))
  = true.
Proof.
  apply (throttled_runs_are_spaced 1000 "a" 1000 later_calls 9000).
  - lia.
  - reflexivity.
  - simpl. lia.
Defined.

Lemma throttle_keeps_last_call_witness :
  snd (last (user (settle note_run 1000 9000
                     (calls note_run 1000 later_calls
                        (call note_run 1000 "a" 1000 (new_host [])))))
         (0, "a"))
  = "e".
Proof.
  refine (proj2 (throttle_keeps_last_call 1000 "a" 1000 later_calls 9000
                   _ _ _)).
  - lia.
  - reflexivity.
  - simpl. lia.
Defined.

Lemma unsupported_network_stays_unsupported_witness :
  networkStatus
    (advance 100000
       (run changes_and_press (mount no_network_api sample_4g 1000)))
  = "API not supported".
Proof.
  refine (proj1 (unsupported_network_stays_unsupported no_network_api
                   sample_4g 1000 changes_and_press 100000 _)).
  reflexivity.
Defined.

Lemma active_emergency_has_resolution_pending_witness :
  Nat.le 1
    (count is_resolve
       (queue (timers
                 (advance 45000
                    (run move_then_press
                       (mount all_capabilities sample_4g 1000)))))).
Proof.
  apply (active_emergency_has_resolution_pending all_capabilities sample_4g
           1000 move_then_press 45000).
  reflexivity.
Defined.

Lemma component_comes_to_rest_witness :
  queue (timers
           (advance 60000
              (run two_moves (mount all_capabilities sample_4g 1000))))
  = []
  /\ emergencyMode
       (advance 60000 (run two_moves (mount all_capabilities sample_4g 1000)))
     = false.
Proof.
  apply (component_comes_to_rest all_capabilities sample_4g 1000 two_moves
           60000).
  reflexivity.
Defined.
